(** * BitSphere: the power-set / binary-string bijection of
    [bijection_mapping.py]

    A shallow embedding of the computational core of the visualisation:
    the enumerator ([PowerSetBijectionVisualization.update_power_set]),
    the placement worker ([VisualizationWorker.run]) and the hand-over of
    placement results to the renderer
    ([PowerSetBijectionVisualization.update_3d_visualization]). *)

From Stdlib Require Import List Arith PeanoNat NArith ZArith Lia Bool.
From Stdlib Require Import Reals Lra.
From Stdlib Require Import Ascii String FinFun Permutation.
From Stdlib Require Import Decimal DecimalString.
Import ListNotations.

Local Open Scope string_scope.
Local Open Scope nat_scope.

(** ** Python strings and the built-ins used by the enumerator *)

Module Py.

(** ["0" * k] *)
Fixpoint zeros (k : nat) : string :=
  match k with
  | O => EmptyString
  | S k' => String "0" (zeros k')
  end.

(** The digits of a positive integer in base 2, most significant first:
    what [format(p, 'b')] prints for [p > 0]. *)
Fixpoint pos_bin (p : positive) : string :=
  match p with
  | xH => "1"
  | xO p' => pos_bin p' ++ "0"
  | xI p' => pos_bin p' ++ "1"
  end.

(** [format(i, 'b')] for [i >= 0]. *)
Definition bin (i : nat) : string :=
  match N.of_nat i with
  | N0 => "0"
  | Npos p => pos_bin p
  end.

(** [format(i, f'0{n}b')] for [i >= 0]: the binary digits of [i], padded on
    the left with ['0'] up to width [n]; a longer digit string is kept
    whole. *)
Definition format_0nb (i n : nat) : string :=
  zeros (n - String.length (bin i)) ++ bin i.

(** One step of [int(s, 2)] over a digit string. *)
Definition digit2 (c : ascii) : option nat :=
  if Ascii.eqb c "0" then Some 0
  else if Ascii.eqb c "1" then Some 1
  else None.

Fixpoint int2_from (acc : nat) (s : string) : option nat :=
  match s with
  | EmptyString => Some acc
  | String c s' =>
      match digit2 c with
      | Some d => int2_from (2 * acc + d) s'
      | None => None
      end
  end.

(** [int(s, 2)] on strings of binary digits; [None] stands for the
    [ValueError] raised on the empty string and on any other character
    (signs, blanks, underscores and the [0b] prefix, which [int] also
    accepts, never occur in the strings built by [format]). *)
Definition int2 (s : string) : option nat :=
  match s with
  | EmptyString => None
  | _ => int2_from 0 s
  end.

(** [s[j]]: [None] stands for [IndexError]. *)
Definition index (s : string) (j : nat) : option ascii := String.get j s.

(** [sep.join(l)] *)
Definition join (sep : string) (l : list string) : string :=
  String.concat sep l.

End Py.

(** ** The enumerator: [update_power_set] *)

(** One entry of the local list [power_set]:
    [(subset, subset_str, binary, i)]. *)
Record SubsetRecord := mkRecord {
  subset : list string;
  subset_str : string;
  binary : string;
  decimal : nat
}.

(** The empty-set symbol, U+2205. *)
Definition empty_set_symbol : string := "∅".

(** [[base_set[j] for j in js if binary[j] == '1']]; an index out of range
    on either side aborts the comprehension. *)
Fixpoint comprehension (base_set : list string) (binary : string)
    (js : list nat) : option (list string) :=
  match js with
  | [] => Some []
  | j :: js' =>
      match Py.index binary j with
      | None => None
      | Some c =>
          if Ascii.eqb c "1" then
            match nth_error base_set j with
            | None => None
            | Some x =>
                match comprehension base_set binary js' with
                | None => None
                | Some rest => Some (x :: rest)
                end
            end
          else comprehension base_set binary js'
      end
  end.

(** The subset string of lines 268-271. *)
Definition format_subset (subset : list string) : string :=
  if Nat.eqb (List.length subset) 0 then empty_set_symbol
  else "{" ++ Py.join ", " subset ++ "}".

(** The body of the loop of [update_power_set] for one [i]. *)
Definition record_of (base_set : list string) (i : nat)
    : option SubsetRecord :=
  let n := List.length base_set in
  let binary := Py.format_0nb i n in
  match comprehension base_set binary (seq 0 n) with
  | None => None
  | Some subset => Some (mkRecord subset (format_subset subset) binary i)
  end.

(** The loop [for i in range(2 ** n)] over the indices still to visit. *)
Fixpoint enumerate (base_set : list string) (idxs : list nat)
    : option (list SubsetRecord) :=
  match idxs with
  | [] => Some []
  | i :: idxs' =>
      match record_of base_set i with
      | None => None
      | Some r =>
          match enumerate base_set idxs' with
          | None => None
          | Some rs => Some (r :: rs)
          end
      end
  end.

(** [update_power_set]: the list [power_set] it builds from
    [self.base_set]; [None] stands for an exception escaping the loop. *)
Definition update_power_set (base_set : list string)
    : option (list SubsetRecord) :=
  enumerate base_set (seq 0 (2 ^ List.length base_set)).

(** The labels [set_size_changed] installs for a spinner value. *)
Definition subscripts : list string :=
  ["₁"; "₂"; "₃"; "₄"; "₅"; "₆"; "₇"; "₈"].

Definition default_base_set (value : nat) : list string :=
  map (fun i => "x" ++ nth i subscripts EmptyString) (seq 0 (Nat.min value 8)).

(** ** The placement worker: [VisualizationWorker] *)

(** The arithmetic the worker computes with.  The source uses Python
    floats and NumPy's [sin] and [cos]; the worker is written once against
    this interface, in the order of operations of the source, and
    interpreted afterwards. *)
Class NumOps (F : Type) := {
  truediv : Z -> Z -> F;     (* [a / b] on two Python ints *)
  of_int : Z -> F;           (* an int operand of a float operation *)
  fmul : F -> F -> F;
  fdiv : F -> F -> F;
  fsub : F -> F -> F;
  fsin : F -> F;             (* [np.sin] *)
  fcos : F -> F;             (* [np.cos] *)
  fpi : F                    (* [np.pi] *)
}.

(** The fields set by [VisualizationWorker.__init__]. *)
Record Worker := mkWorker {
  w_base_set : list string;
  w_current_index : nat;
  w_show_labels : bool;
  w_show_connections : bool
}.

Section Placement.
Context {F : Type} {ops : NumOps F}.

Definition point : Type := F * F * F.

(** The arguments of the signal [updated]. *)
Record Payload := mkPayload {
  power_set_positions : list point;
  binary_positions : list point;
  p_n : nat;
  p_current_index : nat;
  p_show_labels : bool;
  p_show_connections : bool
}.

(** [theta = (i / (2 ** n)) * 2 * np.pi] *)
Definition theta (n i : nat) : F :=
  fmul (fmul (truediv (Z.of_nat i) (Z.of_nat (2 ^ n))) (of_int 2)) fpi.

(** [phi = np.pi / 3] *)
Definition phi : F := fdiv fpi (of_int 3).

(** [phi2 = np.pi - phi] *)
Definition phi2 : F := fsub fpi phi.

(** [(x, y, z)] of lines 45-47. *)
Definition power_point (n i : nat) : point :=
  (fmul (fsin phi) (fcos (theta n i)),
   fmul (fsin phi) (fsin (theta n i)),
   fcos phi).

(** [(x2, y2, z2)] of lines 51-53. *)
Definition binary_point (n i : nat) : point :=
  (fmul (fsin phi2) (fcos (theta n i)),
   fmul (fsin phi2) (fsin (theta n i)),
   fcos phi2).

(** The loop of [run] over the indices still to visit.  [interrupted k] is
    what [isInterruptionRequested()] answers at the check that opens
    iteration [k]; [None] is the early [return]. *)
Fixpoint run_loop (interrupted : nat -> bool) (n : nat) (idxs : list nat)
    (ps bs : list point) : option (list point * list point) :=
  match idxs with
  | [] => Some (ps, bs)
  | i :: idxs' =>
      if interrupted i then None
      else run_loop interrupted n idxs'
             (ps ++ [power_point n i]) (bs ++ [binary_point n i])
  end.

(** [VisualizationWorker.run]: [Some] payload when [updated] is emitted,
    [None] when the method returns without emitting.  The check before
    the emission is the one numbered [2 ** n]. *)
Definition run (w : Worker) (interrupted : nat -> bool) : option Payload :=
  let n := List.length (w_base_set w) in
  match run_loop interrupted n (seq 0 (2 ^ n)) [] [] with
  | None => None
  | Some (ps, bs) =>
      if interrupted (2 ^ n) then None
      else Some (mkPayload ps bs n (w_current_index w)
                   (w_show_labels w) (w_show_connections w))
  end.

(** ** The window: starting workers and receiving their results *)

(** A [QThread] running a worker.  [interruption_requested] is the flag read
    by [isInterruptionRequested()]; only [requestInterruption()] sets it. *)
Record Thread := mkThread {
  job : Worker;
  is_running : bool;
  interruption_requested : bool
}.

(** The part of [PowerSetBijectionVisualization] that
    [update_3d_visualization] reads and writes, with the queue of signal
    deliveries posted to the window's thread and the frames drawn so far. *)
Record Window := mkWindow {
  base_set : list string;
  current_binary : string;
  show_labels_checked : bool;
  show_connections_checked : bool;
  worker : option Thread;
  posted : list Payload;
  drawn : list Payload
}.

(** [QThread.start()] *)
Definition start (w : Worker) : Thread := mkThread w true false.

(** [QThread.quit()]: asks the thread's event loop to exit.  [run] is
    overridden and enters no event loop, so nothing changes; in particular
    the interruption flag is left alone. *)
Definition quit (t : Thread) : Thread := t.

(** The thread reaches the end of [run].  Its [updated] signal is connected
    to a slot of the window, which lives in another thread, so an emission
    is posted to the window's queue. *)
Definition finish (t : Thread) : Thread * list Payload :=
  if is_running t then
    (mkThread (job t) false (interruption_requested t),
     match run (job t) (fun _ => interruption_requested t) with
     | Some p => [p]
     | None => []
     end)
  else (t, []).

(** [QThread.wait()]: blocks the caller until [run] has returned. *)
Definition wait (t : Thread) : Thread * list Payload := finish t.

(** [int(self.current_binary, 2) if self.current_binary else 0]; [None]
    stands for the [ValueError] of [int]. *)
Definition selected_index (current_binary : string) : option nat :=
  match current_binary with
  | EmptyString => Some 0
  | _ => Py.int2 current_binary
  end.

(** [update_3d_visualization]; [None] stands for an exception. *)
Definition update_3d_visualization (win : Window) : option Window :=
  let posted' :=
    match worker win with
    | Some t =>
        if is_running t then (posted win ++ snd (wait (quit t)))%list
        else posted win
    | None => posted win
    end in
  match selected_index (current_binary win) with
  | None => None
  | Some ci =>
      let w := mkWorker (base_set win) ci (show_labels_checked win)
                 (show_connections_checked win) in
      Some (mkWindow (base_set win) (current_binary win)
              (show_labels_checked win) (show_connections_checked win)
              (Some (start w)) posted' (drawn win))
  end.

(** What can happen to a window. *)
Inductive Action :=
| Configure (base_set : list string) (current_binary : string)
    (show_labels show_connections : bool)
                      (* a handler rewrites the configuration *)
| Update              (* a handler calls [update_3d_visualization] *)
| WorkerEnds          (* the worker thread reaches the end of [run] *)
| Dispatch.           (* the event loop delivers the oldest posted signal
                         to [draw_visualization] *)

Definition step (win : Window) (a : Action) : option Window :=
  match a with
  | Configure bs cb sl sc =>
      Some (mkWindow bs cb sl sc (worker win) (posted win) (drawn win))
  | Update => update_3d_visualization win
  | WorkerEnds =>
      match worker win with
      | Some t =>
          let (t', out) := finish t in
          Some (mkWindow (base_set win) (current_binary win)
                  (show_labels_checked win) (show_connections_checked win)
                  (Some t') (posted win ++ out)%list (drawn win))
      | None => Some win
      end
  | Dispatch =>
      match posted win with
      | [] => Some win
      | p :: rest =>
          Some (mkWindow (base_set win) (current_binary win)
                  (show_labels_checked win) (show_connections_checked win)
                  (worker win) rest (drawn win ++ [p])%list)
      end
  end.

Fixpoint steps (win : Window) (tr : list Action) : option Window :=
  match tr with
  | [] => Some win
  | a :: tr' =>
      match step win a with
      | None => None
      | Some win' => steps win' tr'
      end
  end.

(** The window as [__init__] leaves it before its first
    [update_3d_visualization]. *)
Definition initial_window : Window :=
  mkWindow (default_base_set 3) "000" true true None [] [].

(** No thread of the window has its interruption flag set. *)
Definition never_interrupted (win : Window) : Prop :=
  forall t, worker win = Some t -> interruption_requested t = false.

(** The payload a worker emits when it is never interrupted. *)
Definition payload_of (w : Worker) : Payload :=
  let n := List.length (w_base_set w) in
  mkPayload (map (power_point n) (seq 0 (2 ^ n)))
    (map (binary_point n) (seq 0 (2 ^ n))) n (w_current_index w)
    (w_show_labels w) (w_show_connections w).

End Placement.

Arguments Payload F : clear implicits.
Arguments Window F : clear implicits.
Arguments point F : clear implicits.

(** ** Specification-level notions *)

(** The record of index [i], if the enumeration succeeds and has one. *)
Definition nth_record (base_set : list string) (i : nat)
    : option SubsetRecord :=
  match update_power_set base_set with
  | Some recs => nth_error recs i
  | None => None
  end.

(** The character that prints a bit. *)
Definition bit_char (b : bool) : ascii := if b then "1"%char else "0"%char.

(** The elements of [l] whose position carries a ['1'] in [s]. *)
Fixpoint select (l : list string) (s : string) : list string :=
  match l, s with
  | x :: l', String c s' =>
      if Ascii.eqb c "1" then x :: select l' s' else select l' s'
  | _, _ => []
  end.

(** [Subseq l1 l2]: [l1] is [l2] with some elements left out, the others
    in the order of [l2]. *)
Inductive Subseq {A : Type} : list A -> list A -> Prop :=
| Subseq_nil : Subseq [] []
| Subseq_skip x l1 l2 : Subseq l1 l2 -> Subseq l1 (x :: l2)
| Subseq_keep x l1 l2 : Subseq l1 l2 -> Subseq (x :: l1) (x :: l2).

(** What the enumerator computes for index [i], without the range checks. *)
Definition record_spec (base_set : list string) (i : nat) : SubsetRecord :=
  let b := Py.format_0nb i (List.length base_set) in
  let sub := select base_set b in
  mkRecord sub (format_subset sub) b i.

(** ** Interpretations of the arithmetic *)

(** Exact arithmetic: every operation is the real one. *)
#[export] Instance RealOps : NumOps R := {|
  truediv a b := (IZR a / IZR b)%R;
  of_int := IZR;
  fmul := Rmult;
  fdiv := Rdiv;
  fsub := Rminus;
  fsin := sin;
  fcos := cos;
  fpi := PI
|}.

(** Rounded arithmetic: a float is read as the real number it stands for,
    and on operands of magnitude at most 16 every operation lands within
    [e] of the exact result; small integers convert exactly.  IEEE doubles
    with a faithful [sin] and [cos] meet this for [e] far below [1e-11]
    (the worst case is a product near 256, off by at most [2^-45]). *)
Record Accurate (ops : NumOps R) (e : R) : Prop := {
  acc_truediv : forall a b : Z,
    (0 <= a <= b)%Z -> (0 < b)%Z ->
    (Rabs (truediv a b - IZR a / IZR b) <= e)%R;
  acc_of_int : forall z : Z, (Z.abs z <= 16)%Z -> of_int z = IZR z;
  acc_fmul : forall x y : R,
    (Rabs x <= 16)%R -> (Rabs y <= 16)%R ->
    (Rabs (fmul x y - x * y) <= e)%R;
  acc_fdiv : forall x y : R,
    (Rabs x <= 16)%R -> (1 <= Rabs y <= 16)%R ->
    (Rabs (fdiv x y - x / y) <= e)%R;
  acc_fsub : forall x y : R,
    (Rabs x <= 16)%R -> (Rabs y <= 16)%R ->
    (Rabs (fsub x y - (x - y)) <= e)%R;
  acc_fsin : forall x : R,
    (Rabs x <= 16)%R -> (Rabs (fsin x - sin x) <= e)%R;
  acc_fcos : forall x : R,
    (Rabs x <= 16)%R -> (Rabs (fcos x - cos x) <= e)%R;
  acc_fpi : (Rabs (fpi - PI) <= e)%R
}.

(** The sum [x * x + y * y] of a point. *)
Definition horizontal_sq (p : point R) : R :=
  let '(x, y, _) := p in (x * x + y * y)%R.

Definition height (p : point R) : R := let '(_, _, z) := p in z.

(** Degrees to radians. *)
Definition degrees (d : R) : R := (d * PI / 180)%R.

(** ** The replay: [toggle_animation], [next_animation_step],
    [speed_changed] *)

(** [l[i]] on a Python list: a negative index counts from the end, [None]
    stands for [IndexError]. *)
Definition py_getitem {A : Type} (l : list A) (i : Z) : option A :=
  let len := Z.of_nat (List.length l) in
  if (0 <=? i)%Z then nth_error l (Z.to_nat i)
  else if (- len <=? i)%Z then nth_error l (Z.to_nat (len + i))
  else None.

(** The replay state of the window.  [timer] is the [QTimer]
    [animation_timer]: [Some ms] when it is active with interval [ms]. *)
Record Animation := mkAnimation {
  animation_speed : nat;
  animation_index : nat;
  animation_running : bool;
  timer : option nat;
  button_text : string
}.

(** As [__init__] and [init_ui] leave it. *)
Definition initial_animation : Animation :=
  mkAnimation 1000 0 false None "Start Animation".

Definition toggle_animation (a : Animation) : Animation :=
  if animation_running a then
    mkAnimation (animation_speed a) (animation_index a) false None
      "Start Animation"
  else
    mkAnimation (animation_speed a) 0 true (Some (animation_speed a))
      "Stop Animation".

(** [next_animation_step]: the new state and the row handed to
    [selectRow]. *)
Definition next_animation_step (base_set : list string) (a : Animation)
    : Animation * nat :=
  let n := 2 ^ List.length base_set in
  let next_index := (animation_index a + 1) mod n in
  (mkAnimation (animation_speed a) next_index (animation_running a)
     (timer a) (button_text a),
   next_index).

Definition speeds : list nat := [2000; 1000; 500].

(** [speed_changed]; [None] stands for the [IndexError] of
    [speeds[index]]. *)
Definition speed_changed (index : Z) (a : Animation) : option Animation :=
  match py_getitem speeds index with
  | None => None
  | Some ms =>
      Some (mkAnimation ms (animation_index a) (animation_running a)
              (if animation_running a then Some ms else timer a)
              (button_text a))
  end.

(** What happens to the replay: the button is clicked, the combo box
    changes, the timer fires (only an active timer does). *)
Inductive AnimEvent :=
| Clicked
| SpeedIndex (index : Z)
| Timeout (base_set : list string).

Definition anim_step (a : Animation) (ev : AnimEvent) : option Animation :=
  match ev with
  | Clicked => Some (toggle_animation a)
  | SpeedIndex index => speed_changed index a
  | Timeout base_set =>
      match timer a with
      | Some _ => Some (fst (next_animation_step base_set a))
      | None => None
      end
  end.

Fixpoint anim_steps (a : Animation) (evs : list AnimEvent)
    : option Animation :=
  match evs with
  | [] => Some a
  | ev :: evs' =>
      match anim_step a ev with
      | None => None
      | Some a' => anim_steps a' evs'
      end
  end.

(** [k] firings of the timer in a row: the final state and the rows
    selected, in order. *)
Fixpoint ticks (base_set : list string) (k : nat) (a : Animation)
    : Animation * list nat :=
  match k with
  | O => (a, [])
  | S k' =>
      let (a', row) := next_animation_step base_set a in
      let (a'', rows) := ticks base_set k' a' in
      (a'', row :: rows)
  end.

(** The replay is consistent: the timer is active exactly while the replay
    runs, its interval is the chosen speed, the button offers the opposite
    action and the speed is one of the three of the combo box. *)
Definition anim_consistent (a : Animation) : Prop :=
  timer a = (if animation_running a then Some (animation_speed a) else None)
  /\ button_text a =
     (if animation_running a then "Stop Animation" else "Start Animation")
  /\ In (animation_speed a) speeds.


(** ** More Python strings: [str], [split], [strip], slices

    A Python string is held as the bytes of its UTF-8 encoding, as the
    literals of this file are.  The functions below work on these bytes
    and agree with Python on every well-formed string. *)

Module PyText.

(** [str(n)] for [n >= 0]. *)
Definition str (n : nat) : string := NilZero.string_of_uint (Nat.to_uint n).

(** [s.split(",")]: the pieces between the commas, at least one piece. *)
Fixpoint split_comma (s : string) : list string :=
  match s with
  | EmptyString => [EmptyString]
  | String c s' =>
      if Ascii.eqb c "," then EmptyString :: split_comma s'
      else
        match split_comma s' with
        | piece :: pieces => String c piece :: pieces
        | [] => [String c EmptyString]
        end
  end.

(** The characters [str.strip] removes are those of [str.isspace]:
    U+0009..U+000D, U+001C..U+0020, U+0085, U+00A0, U+1680,
    U+2000..U+200A, U+2028, U+2029, U+202F, U+205F and U+3000.  In UTF-8
    they take one, two or three bytes. *)
Definition is_ws1 (c : ascii) : bool :=
  let k := nat_of_ascii c in
  ((9 <=? k) && (k <=? 13)) || ((28 <=? k) && (k <=? 32)).

Definition is_ws2 (c1 c2 : ascii) : bool :=
  (nat_of_ascii c1 =? 194) &&
  ((nat_of_ascii c2 =? 133) || (nat_of_ascii c2 =? 160)).

Definition is_ws3 (c1 c2 c3 : ascii) : bool :=
  let k1 := nat_of_ascii c1 in
  let k2 := nat_of_ascii c2 in
  let k3 := nat_of_ascii c3 in
  ((k1 =? 225) && (k2 =? 154) && (k3 =? 128)) ||
  ((k1 =? 226) && (k2 =? 128) &&
     (((128 <=? k3) && (k3 <=? 138)) ||
      (k3 =? 168) || (k3 =? 169) || (k3 =? 175))) ||
  ((k1 =? 226) && (k2 =? 129) && (k3 =? 159)) ||
  ((k1 =? 227) && (k2 =? 128) && (k3 =? 128)).

(** Removal of the leading characters recognised by [w1], [w2] and [w3],
    which look at one, two and three bytes. *)
Section StripFront.
Variable w1 : ascii -> bool.
Variable w2 : ascii -> ascii -> bool.
Variable w3 : ascii -> ascii -> ascii -> bool.

Fixpoint strip_front (s : string) : string :=
  match s with
  | EmptyString => EmptyString
  | String c1 r1 =>
      if w1 c1 then strip_front r1
      else
        match r1 with
        | EmptyString => s
        | String c2 r2 =>
            if w2 c1 c2 then strip_front r2
            else
              match r2 with
              | EmptyString => s
              | String c3 r3 =>
                  if w3 c1 c2 c3 then strip_front r3 else s
              end
        end
  end.

(** Does [s] begin with such a character? *)
Definition starts_with_ws (s : string) : bool :=
  match s with
  | EmptyString => false
  | String c1 r1 =>
      w1 c1 ||
      match r1 with
      | EmptyString => false
      | String c2 r2 =>
          w2 c1 c2 ||
          match r2 with
          | EmptyString => false
          | String c3 _ => w3 c1 c2 c3
          end
      end
  end.

(** A byte that no character of two or three bytes has as its second
    or third byte. *)
Definition inert (b : ascii) : Prop :=
  (forall c, w2 c b = false) /\
  (forall c c', w3 c b c' = false) /\
  (forall c c', w3 c c' b = false).

End StripFront.

(** [s.lstrip()] *)
Definition lstrip (s : string) : string :=
  strip_front is_ws1 is_ws2 is_ws3 s.

(** The string read backwards. *)
Fixpoint rev (s : string) : string :=
  match s with
  | EmptyString => EmptyString
  | String c s' => rev s' ++ String c EmptyString
  end.

(** [s.rstrip()]: on the string read backwards the bytes of a character
    arrive last byte first. *)
Definition rstrip (s : string) : string :=
  rev (strip_front is_ws1 (fun c1 c2 => is_ws2 c2 c1)
         (fun c1 c2 c3 => is_ws3 c3 c2 c1) (rev s)).

(** [s.strip()] *)
Definition strip (s : string) : string := rstrip (lstrip s).

(** [s[:-1]] *)
Fixpoint drop_last (s : string) : string :=
  match s with
  | EmptyString => EmptyString
  | String c EmptyString => EmptyString
  | String c s' => String c (drop_last s')
  end.

(** [s[1:-1]], for a string whose first and last characters take one
    byte each (or that is shorter than two characters). *)
Definition slice_1_m1 (s : string) : string :=
  match s with
  | EmptyString => EmptyString
  | String _ s' => drop_last s'
  end.

(** A string is truthy when it is not empty. *)
Definition truthy (s : string) : bool :=
  match s with
  | EmptyString => false
  | _ => true
  end.

End PyText.


(** ** The configuration handlers: [set_size_changed], [elements_changed],
    [table_selection_changed] *)

(** The fields of the window these handlers read and write, with the
    value of the spin box [size_spinner] and the text of the line edit
    [elements_input].  The calls of [update_power_set] and
    [update_3d_visualization] that end each handler leave these fields
    alone: the only row they can select is the one of [current_binary],
    which writes back the values the handler has just stored. *)
Record Ui := mkUi {
  ui_base_set : list string;
  ui_set_size : nat;
  ui_selected_subset : list string;
  ui_current_binary : string;
  spinner_value : nat;
  elements_text : string
}.

(** As [__init__] and [init_ui] leave it; the handlers are connected after
    the widgets have received their first values. *)
Definition initial_ui : Ui :=
  mkUi (default_base_set 3) 3 [] "000" 3 "x₁, x₂, x₃".

Definition with_base_set (bs : list string) (size : nat) (ui : Ui) : Ui :=
  mkUi bs size (ui_selected_subset ui) (ui_current_binary ui)
    (spinner_value ui) (elements_text ui).

Definition with_selection (sel : list string) (cb : string) (ui : Ui)
    : Ui :=
  mkUi (ui_base_set ui) (ui_set_size ui) sel cb (spinner_value ui)
    (elements_text ui).

Definition with_spinner (v : nat) (ui : Ui) : Ui :=
  mkUi (ui_base_set ui) (ui_set_size ui) (ui_selected_subset ui)
    (ui_current_binary ui) v (elements_text ui).

Definition with_text (t : string) (ui : Ui) : Ui :=
  mkUi (ui_base_set ui) (ui_set_size ui) (ui_selected_subset ui)
    (ui_current_binary ui) (spinner_value ui) t.

(** [[e.strip() for e in text.split(",") if e.strip()]] *)
Definition parse_elements (text : string) : list string :=
  filter PyText.truthy (map PyText.strip (PyText.split_comma text)).

(** [size_spinner.setRange(1, 6)]: the value [setValue] stores. *)
Definition spinner_clamp (v : nat) : nat := Nat.max 1 (Nat.min v 6).

(** The two handlers call each other through the widgets:
    [elements_input.setText] runs [elements_changed] when the text
    changes, [size_spinner.setValue] runs [set_size_changed] when the
    value changes, both before they return.  [fuel] bounds the depth of
    these calls; [None] means it ran out. *)
Fixpoint set_size_changed (fuel : nat) (value : nat) (ui : Ui)
    {struct fuel} : option Ui :=
  match fuel with
  | O => None
  | S fuel' =>
      let ui1 := with_base_set (default_base_set value) value ui in
      let text := Py.join ", " (ui_base_set ui1) in
      let after_set_text :=
        if String.eqb text (elements_text ui1) then Some ui1
        else elements_changed fuel' text (with_text text ui1) in
      match after_set_text with
      | None => None
      | Some ui2 => Some (with_selection [] (Py.zeros value) ui2)
      end
  end
with elements_changed (fuel : nat) (text : string) (ui : Ui)
    {struct fuel} : option Ui :=
  match fuel with
  | O => None
  | S fuel' =>
      let elements := parse_elements text in
      if 0 <? List.length elements then
        let base := firstn (Nat.min (List.length elements) 6) elements in
        let ui1 := with_base_set base (List.length base) ui in
        let v := spinner_clamp (ui_set_size ui1) in
        let after_set_value :=
          if v =? spinner_value ui1 then Some ui1
          else set_size_changed fuel' v (with_spinner v ui1) in
        match after_set_value with
        | None => None
        | Some ui2 =>
            Some (with_selection [] (Py.zeros (ui_set_size ui2)) ui2)
        end
      else Some ui
  end.

(** The rows [update_power_set] writes into the table. *)
Definition table_rows (recs : list SubsetRecord)
    : list (string * string * string) :=
  map (fun r => (subset_str r, binary r, PyText.str (decimal r))) recs.

(** The loop that ends [update_power_set]: the first row whose binary text
    is [current_binary] is handed to [selectRow]. *)
Fixpoint highlight_from (row : nat) (rows : list (string * string * string))
    (current_binary : string) : option nat :=
  match rows with
  | [] => None
  | (_, b, _) :: rows' =>
      if String.eqb b current_binary then Some row
      else highlight_from (S row) rows' current_binary
  end.

Definition highlight (rows : list (string * string * string))
    (current_binary : string) : option nat :=
  highlight_from 0 rows current_binary.

(** The subset read back from its text in the table, lines 298-306. *)
Definition parse_subset_str (subset_str : string) : list string :=
  if String.eqb subset_str "∅" then []
  else
    let subset_content := PyText.strip (PyText.slice_1_m1 subset_str) in
    if PyText.truthy subset_content then
      map PyText.strip (PyText.split_comma subset_content)
    else [].

(** [table_selection_changed] for a selection that holds a row, given by
    its three texts: the new fields and the texts of the three labels.
    An empty selection changes nothing. *)
Definition table_selection_changed (row : string * string * string)
    (ui : Ui) : Ui * (string * string * string) :=
  let '(subset_str, binary_str, decimal_val) := row in
  (with_selection (parse_subset_str subset_str) binary_str ui,
   ("Subset: " ++ subset_str,
    "Binary: " ++ binary_str,
    "Decimal: " ++ decimal_val)).

(** What the user does: sets the spin box to a value of its range, edits
    the text of the line edit, selects a row of the table. *)
Inductive UiEvent :=
| SpinTo (v : nat)
| EditText (text : string)
| SelectRow (row : nat).

(** The depth of the mutual calls never exceeds four. *)
Definition handler_fuel : nat := 4.

(** One event; [None] when the event cannot happen (a value outside the
    spin box's range, a row the table does not have) or a handler raises
    or runs out of fuel. *)
Definition ui_step (ui : Ui) (ev : UiEvent) : option Ui :=
  match ev with
  | SpinTo v =>
      if (1 <=? v) && (v <=? 6) then
        if v =? spinner_value ui then Some ui
        else set_size_changed handler_fuel v (with_spinner v ui)
      else None
  | EditText text =>
      if String.eqb text (elements_text ui) then Some ui
      else elements_changed handler_fuel text (with_text text ui)
  | SelectRow row =>
      match update_power_set (ui_base_set ui) with
      | None => None
      | Some recs =>
          match nth_error (table_rows recs) row with
          | None => None
          | Some texts => Some (fst (table_selection_changed texts ui))
          end
      end
  end.

Fixpoint ui_steps (ui : Ui) (evs : list UiEvent) : option Ui :=
  match evs with
  | [] => Some ui
  | ev :: evs' =>
      match ui_step ui ev with
      | None => None
      | Some ui' => ui_steps ui' evs'
      end
  end.

(** The configuration [set_size_changed] ends with, called for a value of
    the spin box's range. *)
Definition sized (value : nat) : Ui :=
  mkUi (default_base_set value) value [] (Py.zeros value) value
    (Py.join ", " (default_base_set value)).

(** The configuration [elements_changed] ends with, called for the text
    of the line edit when it holds at least one label. *)
Definition edited (text : string) (ui : Ui) : Ui :=
  let elements := parse_elements text in
  let k := Nat.min (List.length elements) 6 in
  if k =? spinner_value ui then
    mkUi (firstn 6 elements) k [] (Py.zeros k) k text
  else sized k.

(** A label as the handlers produce them: not empty, without a comma, and
    with nothing for [strip] to remove. *)
Definition clean_label (l : string) : Prop :=
  l <> EmptyString /\
  PyText.lstrip l = l /\ PyText.rstrip l = l /\
  ~ In ","%char (list_ascii_of_string l).

(** The configuration is coherent: between one and six clean labels, as
    many as [set_size] and the spin box say, and [current_binary] is the
    binary string of the row [k] whose subset is [selected_subset]. *)
Definition ui_coherent (ui : Ui) : Prop :=
  let n := List.length (ui_base_set ui) in
  1 <= n <= 6 /\
  ui_set_size ui = n /\
  spinner_value ui = n /\
  Forall clean_label (ui_base_set ui) /\
  exists k, k < 2 ^ n /\
    ui_current_binary ui = Py.format_0nb k n /\
    ui_selected_subset ui = select (ui_base_set ui) (Py.format_0nb k n).


(** ** The renderer: [draw_visualization] *)

Section Drawing.
Context {F : Type} {ops : NumOps F}.

(** The float [1.1] by which the labels are moved outwards. *)
Variable label_scale : F.

(** What [draw_visualization] puts on the axes, in the order of the
    calls: [scatter], [text] at a point, [plot] of a segment (the line
    width as a fraction) and [text] on the axis, at height [tenths / 10].
    The axes are cleared and configured before, and the canvas redrawn
    after, with fixed arguments. *)
Inductive Artist :=
| Scatter (p : point F) (color : string) (size : nat)
| Text (p : point F) (text : string) (color : string)
| Line (p1 p2 : point F) (color : string) (linewidth : nat * nat)
| Caption (tenths : Z) (text : string).

Definition scaled (p : point F) : point F :=
  let '(x, y, z) := p in
  (fmul x label_scale, fmul y label_scale, fmul z label_scale).

(** The first loop, from index [i] on; [None] stands for the [IndexError]
    of [self.base_set[j]] or [binary[j]]. *)
Fixpoint draw_power_set (base_set : list string) (n current_index : nat)
    (show_labels : bool) (i : nat) (positions : list (point F))
    : option (list Artist) :=
  match positions with
  | [] => Some []
  | p :: positions' =>
      let binary := Py.format_0nb i n in
      match comprehension base_set binary (seq 0 n) with
      | None => None
      | Some subset =>
          let subset_str :=
            match subset with
            | [] => "∅"
            | _ => "{" ++ Py.join ", " subset ++ "}"
            end in
          let '(color, size) :=
            if i =? current_index then ("red", 100) else ("blue", 50) in
          match draw_power_set base_set n current_index show_labels (S i)
                  positions' with
          | None => None
          | Some rest =>
              Some (Scatter p color size ::
                    (if show_labels then [Text (scaled p) subset_str color]
                     else []) ++ rest)%list
          end
      end
  end.

(** The second loop. *)
Fixpoint draw_binary (n current_index : nat) (show_labels : bool) (i : nat)
    (positions : list (point F)) : list Artist :=
  match positions with
  | [] => []
  | p :: positions' =>
      let binary := Py.format_0nb i n in
      let '(color, size) :=
        if i =? current_index then ("red", 100) else ("green", 50) in
      (Scatter p color size ::
       (if show_labels then [Text (scaled p) binary color] else []) ++
       draw_binary n current_index show_labels (S i) positions')%list
  end.

(** The third loop, over the indices still to visit; [None] stands for
    the [IndexError] of [power_set_positions[i]] or
    [binary_positions[i]]. *)
Fixpoint draw_connections (current_index : nat)
    (power_set_positions binary_positions : list (point F))
    (idxs : list nat) : option (list Artist) :=
  match idxs with
  | [] => Some []
  | i :: idxs' =>
      match nth_error power_set_positions i,
            nth_error binary_positions i with
      | Some p1, Some p2 =>
          let '(color, linewidth) :=
            if i =? current_index then ("red", (2, 1)) else ("gray", (1, 2))
          in
          match draw_connections current_index power_set_positions
                  binary_positions idxs' with
          | None => None
          | Some rest => Some (Line p1 p2 color linewidth :: rest)
          end
      | _, _ => None
      end
  end.

(** [draw_visualization], called with the arguments of the signal while
    the window holds [base_set]; [None] stands for an exception. *)
Definition draw_visualization (base_set : list string) (p : Payload F)
    : option (list Artist) :=
  let n := p_n p in
  match draw_power_set base_set n (p_current_index p) (p_show_labels p) 0
          (power_set_positions p) with
  | None => None
  | Some power_artists =>
      let binary_artists :=
        draw_binary n (p_current_index p) (p_show_labels p) 0
          (binary_positions p) in
      match (if p_show_connections p then
               draw_connections (p_current_index p) (power_set_positions p)
                 (binary_positions p) (seq 0 (2 ^ n))
             else Some []) with
      | None => None
      | Some lines =>
          Some (power_artists ++ binary_artists ++ lines ++
                [Caption 18
                   ("Base Set X = {" ++ Py.join ", " base_set ++ "}");
                 Caption (-18)
                   ("f: 2^X → {0,1}^" ++ PyText.str n ++
                    " maps Y ⊆ X to binary string y₁y₂...y_" ++
                    PyText.str n)])%list
      end
  end.

(** The texts drawn at points, in order. *)
Definition texts_of (arts : list Artist) : list string :=
  flat_map (fun a => match a with Text _ t _ => [t] | _ => [] end) arts.

(** The points drawn by [scatter] with a colour, in order. *)
Definition scattered (color : string) (arts : list Artist)
    : list (point F) :=
  flat_map (fun a => match a with
                     | Scatter p c _ => if String.eqb c color then [p] else []
                     | _ => []
                     end) arts.

(** The segments drawn, in order. *)
Definition lines_of (arts : list Artist) : list (point F * point F) :=
  flat_map (fun a => match a with Line p1 p2 _ _ => [(p1, p2)] | _ => [] end)
    arts.

End Drawing.


(** ** Closing the window: [closeEvent] *)

Section Closing.
Context {F : Type} {ops : NumOps F}.

(** [closeEvent] on the threads and on the replay: a running worker is
    asked to quit and waited for, the timer of a running replay is
    stopped. *)
Definition closeEvent (win : Window F) (a : Animation)
    : Window F * Animation :=
  let win' :=
    match worker win with
    | Some t =>
        if is_running t then
          let (t', out) := wait (quit t) in
          mkWindow (base_set win) (current_binary win)
            (show_labels_checked win) (show_connections_checked win)
            (Some t') (posted win ++ out)%list (drawn win)
        else win
    | None => win
    end in
  let a' :=
    if animation_running a then
      mkAnimation (animation_speed a) (animation_index a)
        (animation_running a) None (button_text a)
    else a in
  (win', a').

(** Every payload waiting in the queue is the complete payload of some
    worker. *)
Definition posted_complete (win : Window F) : Prop :=
  forall p, In p (posted win) -> exists w, p = payload_of w.

End Closing.


(** * Properties *)

(** ** Strings *)

Module PyFacts.
Import Py.

Lemma length_append (s t : string) :
  String.length (s ++ t) = String.length s + String.length t.
Proof. induction s as [|c s IH]; simpl; [reflexivity | now rewrite IH]. Qed.

Lemma append_assoc (s t u : string) : (s ++ t) ++ u = s ++ (t ++ u).
Proof. induction s as [|c s IH]; simpl; [reflexivity | now rewrite IH]. Qed.

Lemma append_nil_r (s : string) : s ++ EmptyString = s.
Proof. induction s as [|c s IH]; simpl; [reflexivity | now rewrite IH]. Qed.

Lemma get_append_l (s t : string) (j : nat) :
  j < String.length s -> String.get j (s ++ t) = String.get j s.
Proof.
  revert j; induction s as [|c s IH]; intros j Hj; simpl in *; [lia|].
  destruct j as [|j]; [reflexivity | apply IH; lia].
Qed.

Lemma get_append_r (s t : string) (j : nat) :
  String.get (String.length s + j) (s ++ t) = String.get j t.
Proof. induction s as [|c s IH]; simpl; [reflexivity | exact IH]. Qed.

Lemma length_zeros (k : nat) : String.length (zeros k) = k.
Proof. induction k; simpl; congruence. Qed.

Lemma zeros_snoc (k : nat) : zeros k ++ "0" = zeros (S k).
Proof. induction k as [|k IH]; simpl; [reflexivity | now rewrite IH]. Qed.

Lemma get_zeros (k j : nat) : j < k -> String.get j (zeros k) = Some "0"%char.
Proof.
  revert j; induction k as [|k IH]; intros j Hj; [lia|].
  destruct j as [|j]; simpl; [reflexivity | apply IH; lia].
Qed.

(** *** Decoding *)

Lemma int2_from_append (s t : string) (acc : nat) :
  int2_from acc (s ++ t) =
  match int2_from acc s with
  | Some a => int2_from a t
  | None => None
  end.
Proof.
  revert acc; induction s as [|c s IH]; intros acc; simpl; [reflexivity|].
  destruct (digit2 c); [apply IH | reflexivity].
Qed.

Lemma int2_from_zeros (k acc : nat) :
  int2_from acc (zeros k) = Some (2 ^ k * acc).
Proof.
  revert acc; induction k as [|k IH]; intros acc; simpl.
  - f_equal; lia.
  - rewrite IH. f_equal; lia.
Qed.

Lemma int2_from_pos_bin (p : positive) (acc : nat) :
  int2_from acc (pos_bin p) =
  Some (2 ^ String.length (pos_bin p) * acc + Pos.to_nat p).
Proof.
  revert acc; induction p as [p IH|p IH|]; intros acc; simpl pos_bin.
  - rewrite int2_from_append, IH, length_append. simpl.
    f_equal. rewrite Pos2Nat.inj_xI, Nat.pow_add_r. simpl. lia.
  - rewrite int2_from_append, IH, length_append. simpl.
    f_equal. rewrite Pos2Nat.inj_xO, Nat.pow_add_r. simpl. lia.
  - simpl. f_equal; lia.
Qed.

Lemma int2_from_bin (i : nat) : int2_from 0 (bin i) = Some i.
Proof.
  unfold bin. destruct (N.of_nat i) as [|p] eqn:E.
  - simpl. f_equal; lia.
  - rewrite int2_from_pos_bin. f_equal; lia.
Qed.

Lemma pos_bin_nonempty (p : positive) : 1 <= String.length (pos_bin p).
Proof.
  destruct p; simpl; rewrite ?length_append; simpl; lia.
Qed.

Lemma bin_nonempty (i : nat) : 1 <= String.length (bin i).
Proof.
  unfold bin. destruct (N.of_nat i); [simpl; lia | apply pos_bin_nonempty].
Qed.

(** [int(format(i, f'0{n}b'), 2) == i], whatever the width. *)
Lemma int2_format_0nb (i n : nat) : int2 (format_0nb i n) = Some i.
Proof.
  assert (H : int2_from 0 (format_0nb i n) = Some i).
  { unfold format_0nb.
    rewrite int2_from_append, int2_from_zeros, Nat.mul_0_r.
    apply int2_from_bin. }
  unfold int2. destruct (format_0nb i n) eqn:E; [|exact H].
  pose proof (bin_nonempty i) as Hne.
  apply (f_equal String.length) in E. unfold format_0nb in E.
  rewrite length_append in E. simpl in E. lia.
Qed.

End PyFacts.

(** ** The digits of [format], most significant first *)

Module FormatFacts.
Import Py PyFacts.

Lemma div2_lt_pow2 (n i : nat) : i < 2 ^ S n -> Nat.div2 i < 2 ^ n.
Proof.
  intros H. pose proof (Nat.div2_odd i) as E.
  rewrite Nat.pow_succ_r' in H.
  destruct (Nat.odd i); simpl Nat.b2n in E; lia.
Qed.

Lemma bin_step (i : nat) :
  2 <= i ->
  bin i = bin (Nat.div2 i) ++ String (bit_char (Nat.odd i)) EmptyString.
Proof.
  intros Hi. unfold bin. rewrite Nat2N.inj_div2.
  destruct (N.of_nat i) as [|p] eqn:E.
  - apply (f_equal N.to_nat) in E. rewrite Nat2N.id in E. simpl in E. lia.
  - apply (f_equal N.to_nat) in E. rewrite Nat2N.id in E. simpl in E.
    subst i. destruct p as [p|p|].
    + rewrite Pos2Nat.inj_xI, Nat.odd_succ, Nat.even_mul. reflexivity.
    + rewrite Pos2Nat.inj_xO, Nat.odd_mul. reflexivity.
    + simpl in Hi. lia.
Qed.

Lemma bin_small (i : nat) :
  i < 2 -> bin i = String (bit_char (Nat.odd i)) EmptyString.
Proof.
  intros Hi. destruct i as [|[|i]]; [reflexivity | reflexivity | lia].
Qed.

Lemma length_bin_le (n i : nat) :
  1 <= n -> i < 2 ^ n -> String.length (bin i) <= n.
Proof.
  revert i; induction n as [|n IH]; intros i Hn Hi; [lia|].
  destruct (Nat.lt_ge_cases i 2) as [Hs|Hb].
  - rewrite (bin_small i Hs). simpl. lia.
  - rewrite (bin_step i Hb), length_append. simpl.
    destruct n as [|n]; [simpl in Hi; lia|].
    specialize (IH (Nat.div2 i) ltac:(lia) (div2_lt_pow2 _ _ Hi)). lia.
Qed.

(** The formatted string is at least [n] characters wide, and exactly [n]
    wide on the indices the enumerator visits. *)
Lemma length_format_0nb_ge (i n : nat) :
  n <= String.length (format_0nb i n).
Proof.
  unfold format_0nb. rewrite length_append, length_zeros. lia.
Qed.

Lemma length_format_0nb (i n : nat) :
  1 <= n -> i < 2 ^ n -> String.length (format_0nb i n) = n.
Proof.
  intros Hn Hi. pose proof (length_bin_le n i Hn Hi).
  unfold format_0nb. rewrite length_append, length_zeros. lia.
Qed.

Lemma format_0nb_step (i n : nat) :
  1 <= n -> i < 2 ^ S n ->
  format_0nb i (S n) =
  format_0nb (Nat.div2 i) n ++ String (bit_char (Nat.odd i)) EmptyString.
Proof.
  intros Hn Hi. unfold format_0nb.
  destruct (Nat.lt_ge_cases i 2) as [Hs|Hb].
  - rewrite (bin_small i Hs).
    assert (Nat.div2 i = 0) as -> by (destruct i as [|[|i]]; [easy|easy|lia]).
    change (bin 0) with "0". simpl String.length.
    replace (S n - 1) with n by lia.
    rewrite zeros_snoc.
    replace (S (n - 1)) with n by lia. reflexivity.
  - rewrite (bin_step i Hb), length_append. simpl String.length.
    rewrite <- append_assoc. f_equal. f_equal. f_equal. lia.
Qed.

(** Character [j] of the width-[n] string is bit [n - 1 - j] of [i]. *)
Lemma format_0nb_get (n i j : nat) :
  i < 2 ^ n -> j < n ->
  String.get j (format_0nb i n) =
  Some (bit_char (Nat.testbit i (n - 1 - j))).
Proof.
  revert i j; induction n as [|n IH]; intros i j Hi Hj; [lia|].
  destruct n as [|n].
  - assert (j = 0) as -> by lia. simpl in Hi.
    destruct i as [|[|i]]; [reflexivity | reflexivity | lia].
  - rewrite format_0nb_step by (assumption || lia).
    pose proof (div2_lt_pow2 _ _ Hi) as Hd.
    destruct (Nat.eq_dec j (S n)) as [->|Hne].
    + rewrite <- (Nat.add_0_r (S n)) at 1.
      rewrite <- (length_format_0nb (Nat.div2 i) (S n)) at 1
        by (assumption || lia).
      rewrite get_append_r. simpl String.get.
      replace (S (S n) - 1 - S n) with 0 by lia. reflexivity.
    + rewrite get_append_l
        by (rewrite length_format_0nb; (assumption || lia)).
      rewrite IH by (assumption || lia).
      replace (S (S n) - 1 - j) with (S (S n - 1 - j)) by lia.
      reflexivity.
Qed.

(** An index below [2 ** n] that is not zero has a ['1'] among its [n]
    digits. *)
Lemma low_bits_zero (n i : nat) :
  i < 2 ^ n -> (forall k, k < n -> Nat.testbit i k = false) -> i = 0.
Proof.
  revert i; induction n as [|n IH]; intros i Hi Hb.
  - simpl in Hi. lia.
  - pose proof (Nat.div2_odd i) as E.
    assert (Ho : Nat.odd i = false) by (apply (Hb 0); lia).
    rewrite Ho in E. simpl Nat.b2n in E.
    assert (Hd : Nat.div2 i = 0).
    { apply IH; [apply div2_lt_pow2; exact Hi|].
      intros k Hk. apply (Hb (S k)). lia. }
    lia.
Qed.

End FormatFacts.

(** ** The enumerator never fails and computes [record_spec] *)

Module EnumFacts.
Import Py PyFacts FormatFacts.

Lemma comprehension_shift (x : string) (l : list string) (c : ascii)
    (s : string) (js : list nat) :
  comprehension (x :: l) (String c s) (map S js) = comprehension l s js.
Proof.
  induction js as [|j js IH]; simpl; [reflexivity|].
  unfold index in *. simpl. rewrite IH. reflexivity.
Qed.

Lemma comprehension_select (l : list string) (s : string) :
  List.length l <= String.length s ->
  comprehension l s (seq 0 (List.length l)) = Some (select l s).
Proof.
  revert s; induction l as [|x l IH]; intros s Hlen; [reflexivity|].
  destruct s as [|c s]; simpl in Hlen; [lia|].
  simpl List.length. simpl seq. rewrite <- seq_shift.
  simpl. rewrite comprehension_shift, IH by lia.
  destruct (Ascii.eqb c "1"); reflexivity.
Qed.

Lemma select_In (l : list string) (s : string) (x : string) :
  In x (select l s) <->
  exists j, nth_error l j = Some x /\ index s j = Some "1"%char.
Proof.
  unfold index. revert s; induction l as [|y l IH]; intros s.
  - simpl. split; [tauto|]. intros (j & H & _). destruct j; discriminate.
  - destruct s as [|c s].
    + simpl. split; [tauto|]. intros (j & _ & H). destruct j; discriminate.
    + simpl select. destruct (Ascii.eqb_spec c "1") as [->|Hc].
      * simpl. rewrite IH. split.
        -- intros [->|(j & H1 & H2)]; [now exists 0 | now exists (S j)].
        -- intros ([|j] & H1 & H2); simpl in *;
             [left; congruence | right; now exists j].
      * rewrite IH. split.
        -- intros (j & H1 & H2). now exists (S j).
        -- intros ([|j] & H1 & H2); simpl in *;
             [congruence | now exists j].
Qed.

Lemma select_Subseq (l : list string) (s : string) : Subseq (select l s) l.
Proof.
  revert s; induction l as [|x l IH]; intros s; [constructor|].
  destruct s as [|c s]; simpl.
  - clear IH. induction (x :: l); constructor; assumption.
  - destruct (Ascii.eqb c "1"); constructor; apply IH.
Qed.

Lemma record_of_spec (base_set : list string) (i : nat) :
  record_of base_set i = Some (record_spec base_set i).
Proof.
  unfold record_of, record_spec.
  rewrite comprehension_select by apply length_format_0nb_ge.
  reflexivity.
Qed.

Lemma enumerate_spec (base_set : list string) (idxs : list nat) :
  enumerate base_set idxs = Some (map (record_spec base_set) idxs).
Proof.
  induction idxs as [|i idxs IH]; simpl; [reflexivity|].
  rewrite record_of_spec, IH. reflexivity.
Qed.

Lemma update_power_set_spec (base_set : list string) :
  update_power_set base_set =
  Some (map (record_spec base_set) (seq 0 (2 ^ List.length base_set))).
Proof. apply enumerate_spec. Qed.

Lemma nth_record_spec (base_set : list string) (i : nat) :
  i < 2 ^ List.length base_set ->
  nth_record base_set i = Some (record_spec base_set i).
Proof.
  intros Hi. unfold nth_record. rewrite update_power_set_spec.
  rewrite nth_error_map, nth_error_nth' with (d := 0)
    by (rewrite length_seq; exact Hi).
  rewrite seq_nth by exact Hi. reflexivity.
Qed.

(** The subset of record [i] is empty exactly for [i = 0]. *)
Lemma select_format_nil (l : list string) (i : nat) :
  i < 2 ^ List.length l ->
  (select l (format_0nb i (List.length l)) = [] <-> i = 0).
Proof.
  intros Hi. set (n := List.length l) in *. split.
  - intros Hnil. apply (low_bits_zero n i Hi). intros k Hk.
    destruct (Nat.testbit i k) eqn:Hb; [|reflexivity]. exfalso.
    destruct (nth_error l (n - 1 - k)) as [x|] eqn:Hx.
    + assert (Hin : In x (select l (format_0nb i n))).
      { apply select_In. exists (n - 1 - k). split; [exact Hx|].
        unfold index. rewrite format_0nb_get by (assumption || lia).
        replace (n - 1 - (n - 1 - k)) with k by lia.
        rewrite Hb. reflexivity. }
      rewrite Hnil in Hin. exact Hin.
    + apply nth_error_None in Hx. fold n in Hx. lia.
  - intros ->. destruct (select l (format_0nb 0 n)) as [|x rest] eqn:E;
      [reflexivity|]. exfalso.
    assert (Hin : In x (select l (format_0nb 0 n))) by (rewrite E; now left).
    apply select_In in Hin. destruct Hin as (j & Hj & Hc).
    assert (Hjn : j < n) by (apply nth_error_Some; congruence).
    unfold index in Hc. rewrite format_0nb_get in Hc by (assumption || lia).
    rewrite Nat.bits_0 in Hc. discriminate.
Qed.

End EnumFacts.

(** ** The enumerator: round trip, coverage, membership, formatting *)

Import Py PyFacts FormatFacts EnumFacts.

Example default_base_set_3 :
  default_base_set 3 = ["x₁"; "x₂"; "x₃"].
Proof. reflexivity. Qed.

Example record_3_5 :
  record_of (default_base_set 3) 5 =
  Some (mkRecord ["x₁"; "x₃"] "{x₁, x₃}" "101" 5).
Proof. reflexivity. Qed.

(** C1. For a base set of size [n] between 1 and 6 and an index [i] below
    [2 ^ n], the enumerator has a record of index [i]; reading its binary
    string in base 2 gives back [i], which is also its decimal field. *)
Theorem binary_string_roundtrip (base_set : list string) (i : nat) :
  1 <= List.length base_set <= 6 ->
  i < 2 ^ List.length base_set ->
  exists r, nth_record base_set i = Some r /\
            int2 (binary r) = Some i /\
            decimal r = i.
Proof.
  intros _ Hi. exists (record_spec base_set i).
  split; [apply nth_record_spec; exact Hi|].
  split; [apply int2_format_0nb | reflexivity].
Qed.

Lemma binary_string_roundtrip_witness :
  exists r, nth_record (default_base_set 3) 5 = Some r /\
            int2 (binary r) = Some 5 /\
            decimal r = 5.
Proof.
  apply (binary_string_roundtrip (default_base_set 3) 5); cbn; lia.
Defined.

(** The decoder that counts how often a value is hit. *)
Lemma filter_eqb_seq (v m : nat) :
  List.length (filter (fun i => Nat.eqb i v) (seq 0 m)) =
  if Nat.ltb v m then 1 else 0.
Proof.
  induction m as [|m IH]; [reflexivity|].
  rewrite seq_S, filter_app, length_app, IH. simpl.
  destruct (Nat.eqb_spec m v) as [->|Hne].
  - rewrite Nat.ltb_irrefl.
    assert ((v <? S v) = true) as -> by (apply Nat.ltb_lt; lia). reflexivity.
  - destruct (Nat.ltb_spec v m), (Nat.ltb_spec v (S m)); simpl; lia.
Qed.

(** C2. For a base set of any size [n] the enumerator returns exactly
    [2 ^ n] records, the record at position [i] carrying the decimal [i];
    their binary strings are pairwise distinct, they decode to
    [0, 1, ..., 2 ^ n - 1] in this order, and so every value below [2 ^ n]
    is the decoding of exactly one record and no other value of any. *)
Theorem enumerator_covers_all_indices (base_set : list string) :
  exists recs,
    update_power_set base_set = Some recs /\
    List.length recs = 2 ^ List.length base_set /\
    map decimal recs = seq 0 (2 ^ List.length base_set) /\
    NoDup (map binary recs) /\
    map (fun r => int2 (binary r)) recs =
      map Some (seq 0 (2 ^ List.length base_set)) /\
    forall v,
      List.length
        (filter (fun r => match int2 (binary r) with
                          | Some w => Nat.eqb w v
                          | None => false
                          end) recs) =
      if Nat.ltb v (2 ^ List.length base_set) then 1 else 0.
Proof.
  set (n := List.length base_set).
  exists (map (record_spec base_set) (seq 0 (2 ^ n))).
  split; [apply update_power_set_spec|].
  split; [now rewrite length_map, length_seq|].
  split; [rewrite map_map; simpl; apply map_id|].
  assert (Hdec : map (fun r => int2 (binary r))
                   (map (record_spec base_set) (seq 0 (2 ^ n))) =
                 map Some (seq 0 (2 ^ n))).
  { rewrite map_map. apply map_ext. intros i. apply int2_format_0nb. }
  split; [|split; [exact Hdec|]].
  - rewrite map_map.
    apply Injective_map_NoDup; [|apply seq_NoDup].
    intros i k E. simpl in E.
    apply (f_equal int2) in E. fold n in E.
    rewrite !int2_format_0nb in E. congruence.
  - intros v. rewrite <- (filter_eqb_seq v (2 ^ n)).
    generalize (seq 0 (2 ^ n)) as l. induction l as [|i l IH];
      [reflexivity|].
    simpl. fold n. rewrite int2_format_0nb.
    destruct (Nat.eqb i v); simpl; rewrite IH; reflexivity.
Qed.

(** C3. Let [x] be element [j] of the base set and [i] an index below
    [2 ^ n].  The binary string of record [i] is [n] characters wide and its
    character [j] prints bit [n - 1 - j] of [i] (most significant bit
    first).  A label belongs to the subset of record [i] exactly when it
    sits at a position whose character is ['1']; for a base set of distinct
    labels, [x] belongs to it exactly when character [j] is ['1'].  The
    subset lists its members in the order of the base set. *)
Theorem subset_membership_matches_bits (base_set : list string)
    (i j : nat) (x : string) :
  i < 2 ^ List.length base_set ->
  nth_error base_set j = Some x ->
  exists r,
    nth_record base_set i = Some r /\
    String.length (binary r) = List.length base_set /\
    index (binary r) j =
      Some (bit_char (Nat.testbit i (List.length base_set - 1 - j))) /\
    (forall y, In y (subset r) <->
       exists k, nth_error base_set k = Some y /\
                 index (binary r) k = Some "1"%char) /\
    (NoDup base_set ->
       (In x (subset r) <-> index (binary r) j = Some "1"%char)) /\
    Subseq (subset r) base_set.
Proof.
  intros Hi Hx. set (n := List.length base_set) in *.
  assert (Hj : j < n) by (apply nth_error_Some; congruence).
  exists (record_spec base_set i).
  split; [apply nth_record_spec; exact Hi|]. simpl. fold n.
  split; [apply length_format_0nb; (assumption || lia)|].
  split; [apply format_0nb_get; assumption|].
  split; [intros y; apply select_In|].
  split; [|apply select_Subseq].
  intros Hnd. rewrite select_In. split.
  - intros (k & Hk & Hc).
    assert (k = j) as ->; [|exact Hc].
    apply (proj1 (NoDup_nth_error base_set) Hnd);
      [apply nth_error_Some|]; congruence.
  - intros Hc. now exists j.
Qed.

Lemma subset_membership_matches_bits_witness :
  exists r,
    nth_record (default_base_set 3) 5 = Some r /\
    String.length (binary r) = 3 /\
    index (binary r) 2 = Some (bit_char (Nat.testbit 5 0)) /\
    (forall y, In y (subset r) <->
       exists k, nth_error (default_base_set 3) k = Some y /\
                 index (binary r) k = Some "1"%char) /\
    (NoDup (default_base_set 3) ->
       (In "x₃" (subset r) <-> index (binary r) 2 = Some "1"%char)) /\
    Subseq (subset r) (default_base_set 3).
Proof.
  apply (subset_membership_matches_bits (default_base_set 3) 5 2 "x₃");
    [cbn; lia | reflexivity].
Defined.

(** Labels are compared as values: with a repeated label the element at a
    position whose character is ['0'] is still found in the subset when its
    twin sits at a ['1']. *)
Example repeated_label_membership :
  exists r, nth_record ["a"; "a"] 1 = Some r /\
            binary r = "01" /\ subset r = ["a"].
Proof. eexists. split; [reflexivity|]. split; reflexivity. Qed.

(** C8. The subset of record [i] is empty exactly for [i = 0], and is then
    printed as the empty-set symbol; a subset that is not empty is printed
    as its elements, joined by a comma and a blank, between braces, and
    these elements come in the order of the base set.  For [n = 1] the
    enumerator returns the two records [0 -> "0" -> ∅] and
    [1 -> "1" -> {x₁}]. *)
Theorem subset_formatting (base_set : list string) (i : nat) :
  i < 2 ^ List.length base_set ->
  exists r,
    nth_record base_set i = Some r /\
    (subset r = [] <-> i = 0) /\
    (subset r = [] -> subset_str r = "∅") /\
    (subset r <> [] ->
       subset_str r = "{" ++ join ", " (subset r) ++ "}") /\
    Subseq (subset r) base_set /\
    update_power_set (default_base_set 1) =
      Some [mkRecord [] "∅" "0" 0; mkRecord ["x₁"] "{x₁}" "1" 1].
Proof.
  intros Hi. exists (record_spec base_set i).
  split; [apply nth_record_spec; exact Hi|]. simpl.
  split; [apply select_format_nil; exact Hi|].
  unfold format_subset.
  split; [intros ->; reflexivity|].
  split; [|split; [apply select_Subseq | reflexivity]].
  intros Hne. destruct (select _ _); [congruence | reflexivity].
Qed.

Lemma subset_formatting_witness :
  exists r,
    nth_record (default_base_set 3) 5 = Some r /\
    (subset r = [] <-> 5 = 0) /\
    (subset r = [] -> subset_str r = "∅") /\
    (subset r <> [] ->
       subset_str r = "{" ++ join ", " (subset r) ++ "}") /\
    Subseq (subset r) (default_base_set 3) /\
    update_power_set (default_base_set 1) =
      Some [mkRecord [] "∅" "0" 0; mkRecord ["x₁"] "{x₁}" "1" 1].
Proof.
  apply (subset_formatting (default_base_set 3) 5); cbn; lia.
Defined.

(** ** The placement worker *)

Section WorkerFacts.
Context {F : Type} {ops : NumOps F}.

Lemma run_loop_clear (interrupted : nat -> bool) (n : nat)
    (idxs : list nat) (ps bs : list (point F)) :
  (forall i, In i idxs -> interrupted i = false) ->
  run_loop interrupted n idxs ps bs =
  Some ((ps ++ map (power_point n) idxs)%list,
        (bs ++ map (binary_point n) idxs)%list).
Proof.
  revert ps bs; induction idxs as [|i idxs IH]; intros ps bs Hclear; simpl.
  - now rewrite !app_nil_r.
  - rewrite (Hclear i) by now left.
    rewrite IH by (intros k Hk; apply Hclear; now right).
    now rewrite <- !app_assoc.
Qed.

Lemma run_loop_interrupted (interrupted : nat -> bool) (n : nat)
    (idxs : list nat) (ps bs : list (point F)) (k : nat) :
  In k idxs -> interrupted k = true ->
  run_loop interrupted n idxs ps bs = None.
Proof.
  revert ps bs; induction idxs as [|i idxs IH]; intros ps bs Hin Hk;
    [destruct Hin|].
  simpl. destruct (interrupted i) eqn:Hi; [reflexivity|].
  destruct Hin as [->|Hin]; [congruence | now apply IH].
Qed.

(** A run that sees the flag clear at each of its checks emits
    [payload_of]. *)
Lemma run_clear (w : Worker) (interrupted : nat -> bool) :
  (forall k, k <= 2 ^ List.length (w_base_set w) -> interrupted k = false) ->
  run w interrupted = Some (payload_of w).
Proof.
  intros Hclear. unfold run.
  rewrite run_loop_clear
    by (intros i Hi; apply Hclear; apply in_seq in Hi; lia).
  rewrite (Hclear _ (Nat.le_refl _)). reflexivity.
Qed.

(** Whatever a run emits is [payload_of]: nothing partial is ever sent. *)
Lemma run_emits_payload_of (w : Worker) (interrupted : nat -> bool)
    (p : Payload F) :
  run w interrupted = Some p -> p = payload_of w.
Proof.
  intros Hrun.
  assert (Hclear : forall k, k <= 2 ^ List.length (w_base_set w) ->
                             interrupted k = false).
  { intros k Hk. destruct (interrupted k) eqn:E; [|reflexivity].
    exfalso. unfold run in Hrun.
    destruct (Nat.eq_dec k (2 ^ List.length (w_base_set w))) as [->|Hne].
    - rewrite E in Hrun. destruct (run_loop _ _ _ _ _) as [[? ?]|];
        discriminate.
    - rewrite (run_loop_interrupted _ _ _ _ _ k) in Hrun;
        [discriminate | apply in_seq; lia | exact E]. }
  rewrite (run_clear w interrupted Hclear) in Hrun. congruence.
Qed.

Lemma payload_of_nth (w : Worker) (i : nat) :
  i < 2 ^ List.length (w_base_set w) ->
  nth_error (power_set_positions (payload_of w)) i =
    Some (power_point (List.length (w_base_set w)) i) /\
  nth_error (binary_positions (payload_of w)) i =
    Some (binary_point (List.length (w_base_set w)) i).
Proof.
  intros Hi. unfold payload_of. simpl.
  rewrite !nth_error_map, nth_error_nth' with (d := 0)
    by (rewrite length_seq; exact Hi).
  rewrite seq_nth by exact Hi. split; reflexivity.
Qed.

End WorkerFacts.

(** C7. If the interruption flag is seen set at one of the checks of [run],
    at the top of an iteration [k < 2 ^ n] or at the last check before the
    emission ([k = 2 ^ n]), the run ends without emitting [updated]: no
    payload, complete or partial, leaves the worker, and it ends by a plain
    return. *)
Theorem cancelled_run_publishes_nothing {F : Type} {ops : NumOps F}
    (w : Worker) (interrupted : nat -> bool) (k : nat) :
  k <= 2 ^ List.length (w_base_set w) ->
  interrupted k = true ->
  run w interrupted = None.
Proof.
  intros Hk Hint. unfold run.
  destruct (Nat.eq_dec k (2 ^ List.length (w_base_set w))) as [->|Hne].
  - rewrite Hint. destruct (run_loop _ _ _ _ _) as [[? ?]|]; reflexivity.
  - rewrite (run_loop_interrupted _ _ _ _ _ k);
      [reflexivity | apply in_seq; lia | exact Hint].
Qed.

Lemma cancelled_run_publishes_nothing_witness :
  run (ops := RealOps) (mkWorker (default_base_set 3) 5 true true)
    (fun k => Nat.eqb k 4) = None.
Proof.
  apply (cancelled_run_publishes_nothing _ _ 4); [cbn; lia | reflexivity].
Defined.

(** C9. The positions a worker emits depend on the size of its base set
    and on nothing else: two runs over base sets of one size [n], whatever
    the labels, the selected index, the display flags and the moments the
    interruption flag was polled, emit the same two lists of positions, and
    entry [i] of each list is a function of [n] and [i] alone. *)
Theorem placement_is_deterministic {F : Type} {ops : NumOps F}
    (w1 w2 : Worker) (int1 int2 : nat -> bool) (p1 p2 : Payload F) :
  List.length (w_base_set w1) = List.length (w_base_set w2) ->
  run w1 int1 = Some p1 ->
  run w2 int2 = Some p2 ->
  power_set_positions p1 = power_set_positions p2 /\
  binary_positions p1 = binary_positions p2 /\
  forall i, i < 2 ^ List.length (w_base_set w1) ->
    nth_error (power_set_positions p1) i =
      Some (power_point (List.length (w_base_set w1)) i) /\
    nth_error (binary_positions p1) i =
      Some (binary_point (List.length (w_base_set w1)) i).
Proof.
  intros Hlen H1 H2.
  apply run_emits_payload_of in H1. apply run_emits_payload_of in H2.
  subst p1 p2.
  split; [unfold payload_of; simpl; now rewrite Hlen|].
  split; [unfold payload_of; simpl; now rewrite Hlen|].
  intros i Hi. apply payload_of_nth. exact Hi.
Qed.

Lemma placement_is_deterministic_witness :
  let w1 := mkWorker (default_base_set 2) 3 true true in
  let w2 := mkWorker ["a"; "b"] 0 false false in
  let p1 := payload_of (ops := RealOps) w1 in
  let p2 := payload_of (ops := RealOps) w2 in
  power_set_positions p1 = power_set_positions p2 /\
  binary_positions p1 = binary_positions p2 /\
  forall i, i < 2 ^ List.length (w_base_set w1) ->
    nth_error (power_set_positions p1) i =
      Some (power_point (List.length (w_base_set w1)) i) /\
    nth_error (binary_positions p1) i =
      Some (binary_point (List.length (w_base_set w1)) i).
Proof.
  intros w1 w2 p1 p2.
  apply (placement_is_deterministic w1 w2 (fun _ => false) (fun _ => false));
    reflexivity.
Defined.

(** The azimuth in exact arithmetic. *)
Lemma theta_exact (n i : nat) :
  theta (ops := RealOps) n i = (INR i / 2 ^ n * (2 * PI))%R.
Proof.
  unfold theta. cbn [truediv of_int fmul fpi RealOps].
  rewrite <- !INR_IZR_INZ, pow_INR.
  replace (INR 2) with 2%R by (simpl; lra).
  unfold Rdiv. ring.
Qed.

Lemma theta_3_5 : theta (ops := RealOps) 3 5 = degrees 225.
Proof. rewrite theta_exact. unfold degrees. simpl. field. Qed.

(** C4. For a worker over a base set of size [n] and an index [i] below
    [2 ^ n], a run that is not interrupted emits [2 ^ n] positions of each
    kind, and the entries of index [i] are
    [(sin phi * cos theta, sin phi * sin theta, cos phi)] and
    [(sin phi2 * cos theta, sin phi2 * sin theta, cos phi2)] with
    [theta = (i / 2 ^ n) * 2 * pi], [phi = pi / 3] and [phi2 = pi - phi],
    computed in the arithmetic of the worker.  In exact arithmetic
    [theta] is [(i / 2 ^ n) * (2 * PI)]; for [n = 3] and [i = 5] it is 225
    degrees, the binary string is ["101"] and the subset is [x₁, x₃]. *)
Theorem placement_formula {F : Type} {ops : NumOps F}
    (w : Worker) (i : nat) :
  i < 2 ^ List.length (w_base_set w) ->
  let n := List.length (w_base_set w) in
  let th :=
    fmul (fmul (truediv (Z.of_nat i) (Z.of_nat (2 ^ n))) (of_int 2)) fpi in
  let ph := fdiv fpi (of_int 3) in
  let ph2 := fsub fpi ph in
  (exists p,
     run w (fun _ => false) = Some p /\
     List.length (power_set_positions p) = 2 ^ n /\
     List.length (binary_positions p) = 2 ^ n /\
     nth_error (power_set_positions p) i =
       Some (fmul (fsin ph) (fcos th), fmul (fsin ph) (fsin th), fcos ph) /\
     nth_error (binary_positions p) i =
       Some (fmul (fsin ph2) (fcos th), fmul (fsin ph2) (fsin th),
             fcos ph2)) /\
  theta (ops := RealOps) n i = (INR i / 2 ^ n * (2 * PI))%R /\
  theta (ops := RealOps) 3 5 = degrees 225 /\
  record_of (default_base_set 3) 5 =
    Some (mkRecord ["x₁"; "x₃"] "{x₁, x₃}" "101" 5).
Proof.
  intros Hi n th ph ph2.
  split; [|split; [apply theta_exact | split; [apply theta_3_5|reflexivity]]].
  exists (payload_of w).
  split; [apply run_clear; reflexivity|].
  unfold payload_of at 1 2. simpl. rewrite !length_map, length_seq.
  split; [reflexivity|]. split; [reflexivity|].
  apply payload_of_nth. exact Hi.
Qed.

Lemma placement_formula_witness :
  let w := mkWorker (default_base_set 3) 5 true true in
  let th := (IZR 5 / IZR 8 * IZR 2 * PI)%R in
  let ph := (PI / IZR 3)%R in
  let ph2 := (PI - ph)%R in
  (exists p,
     run (ops := RealOps) w (fun _ => false) = Some p /\
     List.length (power_set_positions p) = 8 /\
     List.length (binary_positions p) = 8 /\
     nth_error (power_set_positions p) 5 =
       Some (sin ph * cos th, sin ph * sin th, cos ph)%R /\
     nth_error (binary_positions p) 5 =
       Some (sin ph2 * cos th, sin ph2 * sin th, cos ph2)%R) /\
  theta (ops := RealOps) 3 5 = (INR 5 / 2 ^ 3 * (2 * PI))%R /\
  theta (ops := RealOps) 3 5 = degrees 225 /\
  record_of (default_base_set 3) 5 =
    Some (mkRecord ["x₁"; "x₃"] "{x₁, x₃}" "101" 5).
Proof.
  apply (placement_formula (ops := RealOps)
           (mkWorker (default_base_set 3) 5 true true) 5).
  cbn. lia.
Defined.

(** ** Starting a second computation while the first is running *)

Section WindowFacts.
Context {F : Type} {ops : NumOps F}.

Lemma finish_keeps_flag (t : Thread) :
  interruption_requested (fst (finish (F := F) t)) = interruption_requested t.
Proof. unfold finish. destruct (is_running t); reflexivity. Qed.

Lemma step_never_interrupted (win win' : Window F) (a : Action) :
  never_interrupted win -> step win a = Some win' -> never_interrupted win'.
Proof.
  intros Hinv Hstep t Ht. destruct a; simpl in Hstep.
  - injection Hstep as <-. apply Hinv. exact Ht.
  - unfold update_3d_visualization in Hstep.
    destruct (selected_index (current_binary win)); [|discriminate].
    injection Hstep as <-. simpl in Ht. injection Ht as <-. reflexivity.
  - destruct (worker win) as [t0|] eqn:Hw.
    + pose proof (finish_keeps_flag t0) as Hk.
      destruct (finish t0) as [t' out]. injection Hstep as <-.
      simpl in Ht. injection Ht as <-. simpl in Hk. rewrite Hk.
      apply Hinv. exact Hw.
    + injection Hstep as <-. apply Hinv. exact Ht.
  - destruct (posted win); injection Hstep as <-; apply Hinv; exact Ht.
Qed.

Lemma steps_never_interrupted (tr : list Action) (win win' : Window F) :
  never_interrupted win -> steps win tr = Some win' -> never_interrupted win'.
Proof.
  revert win; induction tr as [|a tr IH]; intros win Hinv Hsteps; simpl in *.
  - injection Hsteps as <-. exact Hinv.
  - destruct (step win a) as [win1|] eqn:Hs; [|discriminate].
    apply (IH win1); [|exact Hsteps].
    apply (step_never_interrupted win win1 a); assumption.
Qed.

(** In every state the window can reach, no worker has been asked to
    stop. *)
Lemma reachable_never_interrupted (tr : list Action) (win : Window F) :
  steps initial_window tr = Some win -> never_interrupted win.
Proof.
  apply steps_never_interrupted. intros t Ht. discriminate.
Qed.

(** [update_3d_visualization] on a window whose worker is running lets
    that worker run to its end and posts its payload. *)
Lemma update_posts_running_worker (win win' : Window F) (t : Thread) :
  worker win = Some t ->
  is_running t = true ->
  interruption_requested t = false ->
  update_3d_visualization win = Some win' ->
  posted win' = (posted win ++ [payload_of (job t)])%list.
Proof.
  intros Hw Hr Hf Hup. unfold update_3d_visualization in Hup.
  rewrite Hw, Hr in Hup.
  destruct (selected_index (current_binary win)); [|discriminate].
  injection Hup as <-. simpl. unfold wait, quit, finish.
  rewrite Hr, Hf. simpl.
  rewrite run_clear by reflexivity. reflexivity.
Qed.

End WindowFacts.

(** C6, at a failing input.  [__init__] starts the first worker; while it
    is running, [set_size_changed(1)] installs the base set [x₁] with
    selection ["0"] and calls [update_3d_visualization].  No interruption
    is requested, the call waits for the first worker, whose payload is
    posted, and starts the second.  The next signal the event loop delivers
    to [draw_visualization] is the payload of the first worker, computed
    for three elements; the payload of the second is drawn after it. *)
Theorem stale_result_is_drawn {F : Type} {ops : NumOps F} :
  let w1 := mkWorker (default_base_set 3) 0 true true in
  let w2 := mkWorker (default_base_set 1) 0 true true in
  let second_request :=
    [Update; Configure (default_base_set 1) "0" true true; Update] in
  option_map worker (steps (F := F) initial_window [Update]) =
    Some (Some (start w1)) /\
  option_map worker (steps (F := F) initial_window second_request) =
    Some (Some (start w2)) /\
  option_map posted (steps initial_window second_request) =
    Some [payload_of w1] /\
  option_map drawn (steps initial_window (second_request ++ [Dispatch])) =
    Some [payload_of w1] /\
  option_map drawn
    (steps initial_window
       (second_request ++ [Dispatch; WorkerEnds; Dispatch])) =
    Some [payload_of w1; payload_of w2] /\
  p_n (payload_of w1) = 3 /\ p_n (payload_of w2) = 1.
Proof.
  intros w1 w2 second_request. repeat split; reflexivity.
Qed.

(** ** Real analysis used for the rounded placement *)

Module RealFacts.
Local Open Scope R_scope.

Lemma abs_le_inv (a b : R) : Rabs a <= b -> - b <= a <= b.
Proof.
  intros H. unfold Rabs in H. destruct (Rcase_abs a); lra.
Qed.

Lemma abs_sin_le (x : R) : Rabs (sin x) <= Rabs x.
Proof.
  assert (Hpos : forall y, 0 < y -> - y <= sin y <= y).
  { intros y Hy. pose proof (sin_lt_x y Hy) as Hup.
    destruct (Rle_or_lt 1 y) as [H1|H1].
    - pose proof (SIN_bound y). lra.
    - assert (0 < sin y); [|lra].
      apply sin_gt_0; [exact Hy|]. pose proof PI2_3_2. lra. }
  destruct (Rtotal_order x 0) as [Hneg|[->|Hgt]].
  - specialize (Hpos (- x) ltac:(lra)). rewrite sin_neg in Hpos.
    rewrite (Rabs_left x Hneg). apply Rabs_le. lra.
  - rewrite sin_0, Rabs_R0. lra.
  - specialize (Hpos x Hgt).
    rewrite (Rabs_right x) by lra. apply Rabs_le. lra.
Qed.

Lemma sin_lipschitz (a b : R) : Rabs (sin a - sin b) <= Rabs (a - b).
Proof.
  rewrite form4, !Rabs_mult.
  pose proof (COS_bound ((a + b) / 2)) as Hc.
  pose proof (abs_sin_le ((a - b) / 2)) as Hs.
  assert (Hc' : Rabs (cos ((a + b) / 2)) <= 1) by (apply Rabs_le; lra).
  replace (Rabs ((a - b) / 2)) with (Rabs (a - b) / 2) in Hs.
  2:{ unfold Rdiv. rewrite Rabs_mult, (Rabs_right (/ 2)) by lra.
      reflexivity. }
  rewrite (Rabs_right 2) by lra.
  pose proof (Rabs_pos (cos ((a + b) / 2))).
  pose proof (Rabs_pos (sin ((a - b) / 2))).
  pose proof (Rabs_pos (a - b)).
  nra.
Qed.

Lemma cos_lipschitz (a b : R) : Rabs (cos a - cos b) <= Rabs (a - b).
Proof.
  rewrite form2, !Rabs_mult.
  pose proof (SIN_bound ((a + b) / 2)) as Hc.
  pose proof (abs_sin_le ((a - b) / 2)) as Hs.
  assert (Hc' : Rabs (sin ((a + b) / 2)) <= 1) by (apply Rabs_le; lra).
  replace (Rabs ((a - b) / 2)) with (Rabs (a - b) / 2) in Hs.
  2:{ unfold Rdiv. rewrite Rabs_mult, (Rabs_right (/ 2)) by lra.
      reflexivity. }
  replace (Rabs (-2)) with 2 by (rewrite Rabs_left; lra).
  pose proof (Rabs_pos (sin ((a + b) / 2))).
  pose proof (Rabs_pos (sin ((a - b) / 2))).
  pose proof (Rabs_pos (a - b)).
  nra.
Qed.

Lemma cos_PI_minus (x : R) : cos (PI - x) = - cos x.
Proof.
  replace (PI - x) with (- x + PI) by ring.
  rewrite neg_cos, cos_neg. reflexivity.
Qed.

Lemma sin_PI3_sq : sin (PI / 3) * sin (PI / 3) = 3 / 4.
Proof.
  rewrite sin_PI3. unfold Rdiv.
  replace (sqrt 3 * / 2 * (sqrt 3 * / 2)) with (sqrt 3 * sqrt 3 * / 4)
    by field.
  rewrite sqrt_sqrt by lra. reflexivity.
Qed.

(** A product of two approximations. *)
Lemma prod_close (s S c C ds dc : R) :
  Rabs (s - S) <= ds -> Rabs (c - C) <= dc ->
  Rabs S <= 1 -> Rabs C <= 1 ->
  Rabs (s * c - S * C) <= (1 + ds) * dc + ds.
Proof.
  intros Hs Hc HS HC.
  apply abs_le_inv in Hs, Hc, HS, HC. apply Rabs_le. nra.
Qed.

(** The square of an approximation. *)
Lemma sq_close (x X d : R) :
  Rabs (x - X) <= d -> Rabs X <= 1 -> d <= 1 ->
  Rabs (x * x - X * X) <= 3 * d.
Proof.
  intros Hx HX Hd. apply abs_le_inv in Hx, HX. apply Rabs_le. nra.
Qed.

End RealFacts.

(** ** The placement in rounded arithmetic *)

Section Rounded.
Import RealFacts.
Local Open Scope R_scope.

Context (ops : NumOps R) (e : R).
Hypothesis Hacc : Accurate ops e.
Hypothesis He : e <= / 100.

Lemma e_nonneg : 0 <= e.
Proof.
  pose proof (acc_fpi ops e Hacc). pose proof (Rabs_pos (fpi - PI)). lra.
Qed.

Lemma fpi_range : 0 < fpi <= 4 + e.
Proof.
  pose proof (abs_le_inv _ _ (acc_fpi ops e Hacc)).
  pose proof PI_4. pose proof PI2_3_2. lra.
Qed.

Lemma phi_close : Rabs (phi - PI / 3) <= 2 * e.
Proof.
  unfold phi. rewrite (acc_of_int ops e Hacc 3) by (simpl; lia).
  pose proof fpi_range as Hp. pose proof e_nonneg as H0.
  assert (H : Rabs (fdiv fpi 3 - fpi / 3) <= e).
  { apply (acc_fdiv ops e Hacc).
    - apply Rabs_le. lra.
    - rewrite Rabs_right by lra. lra. }
  apply abs_le_inv in H.
  pose proof (abs_le_inv _ _ (acc_fpi ops e Hacc)).
  apply Rabs_le. lra.
Qed.

Lemma phi_range : Rabs phi <= 16.
Proof.
  pose proof (abs_le_inv _ _ phi_close). pose proof e_nonneg.
  pose proof PI_4. pose proof PI_RGT_0. apply Rabs_le. lra.
Qed.

Lemma phi2_close : Rabs (phi2 - (PI - PI / 3)) <= 4 * e.
Proof.
  unfold phi2. pose proof fpi_range as Hp. pose proof e_nonneg as H0.
  assert (H : Rabs (fsub fpi phi - (fpi - phi)) <= e).
  { apply (acc_fsub ops e Hacc); [apply Rabs_le; lra | apply phi_range]. }
  apply abs_le_inv in H.
  pose proof (abs_le_inv _ _ phi_close).
  pose proof (abs_le_inv _ _ (acc_fpi ops e Hacc)).
  apply Rabs_le. lra.
Qed.

Lemma phi2_range : Rabs phi2 <= 16.
Proof.
  pose proof (abs_le_inv _ _ phi2_close). pose proof e_nonneg.
  pose proof PI_4. pose proof PI_RGT_0. apply Rabs_le. lra.
Qed.

Lemma theta_range (n i : nat) : (i < 2 ^ n)%nat -> Rabs (theta n i) <= 16.
Proof.
  intros Hi. unfold theta.
  rewrite (acc_of_int ops e Hacc 2) by (simpl; lia).
  set (a := Z.of_nat i). set (b := Z.of_nat (2 ^ n)).
  assert (Hab : (0 <= a <= b)%Z) by (unfold a, b; lia).
  assert (Hb : (0 < b)%Z) by (unfold a, b; lia).
  pose proof (abs_le_inv _ _ (acc_truediv ops e Hacc a b Hab Hb)) as H0.
  assert (Hq : 0 <= IZR a / IZR b <= 1).
  { assert (0 <= IZR a) by (apply IZR_le; lia).
    assert (IZR a <= IZR b) by (apply IZR_le; lia).
    assert (0 < IZR b) by (apply IZR_lt; lia).
    split.
    - apply Rmult_le_pos; [assumption|].
      apply Rlt_le, Rinv_0_lt_compat; assumption.
    - apply (Rmult_le_reg_r (IZR b)); [assumption|].
      unfold Rdiv. rewrite Rmult_assoc, Rinv_l by lra. lra. }
  set (t0 := truediv a b) in *.
  pose proof e_nonneg as Hn.
  assert (H1 : Rabs (fmul t0 2 - t0 * 2) <= e).
  { apply (acc_fmul ops e Hacc); apply Rabs_le; lra. }
  apply abs_le_inv in H1. set (t1 := fmul t0 2) in *.
  pose proof fpi_range as Hp.
  assert (H2 : Rabs (fmul t1 fpi - t1 * fpi) <= e).
  { apply (acc_fmul ops e Hacc); apply Rabs_le; lra. }
  apply abs_le_inv in H2. apply Rabs_le. nra.
Qed.

Lemma sin_phi_close : Rabs (fsin phi - sin (PI / 3)) <= 3 * e.
Proof.
  pose proof (abs_le_inv _ _ (acc_fsin ops e Hacc phi phi_range)).
  pose proof (abs_le_inv _ _
                (Rle_trans _ _ _ (sin_lipschitz phi (PI / 3)) phi_close)).
  apply Rabs_le. lra.
Qed.

Lemma cos_phi_close : Rabs (fcos phi - 1 / 2) <= 3 * e.
Proof.
  rewrite <- cos_PI3.
  pose proof (abs_le_inv _ _ (acc_fcos ops e Hacc phi phi_range)).
  pose proof (abs_le_inv _ _
                (Rle_trans _ _ _ (cos_lipschitz phi (PI / 3)) phi_close)).
  apply Rabs_le. lra.
Qed.

Lemma sin_phi2_close : Rabs (fsin phi2 - sin (PI / 3)) <= 5 * e.
Proof.
  rewrite <- (sin_PI_x (PI / 3)).
  pose proof (abs_le_inv _ _ (acc_fsin ops e Hacc phi2 phi2_range)).
  pose proof (abs_le_inv _ _
                (Rle_trans _ _ _ (sin_lipschitz phi2 (PI - PI / 3))
                   phi2_close)).
  apply Rabs_le. lra.
Qed.

Lemma cos_phi2_close : Rabs (fcos phi2 + 1 / 2) <= 5 * e.
Proof.
  rewrite <- cos_PI3.
  replace (fcos phi2 + cos (PI / 3)) with (fcos phi2 - cos (PI - PI / 3))
    by (rewrite cos_PI_minus; ring).
  pose proof (abs_le_inv _ _ (acc_fcos ops e Hacc phi2 phi2_range)).
  pose proof (abs_le_inv _ _
                (Rle_trans _ _ _ (cos_lipschitz phi2 (PI - PI / 3))
                   phi2_close)).
  apply Rabs_le. lra.
Qed.

(** A horizontal coordinate [fmul s c], where [s] approximates
    [sin (PI / 3)] and [c] a value [C] between -1 and 1. *)
Lemma coord_close (s c C : R) :
  Rabs (s - sin (PI / 3)) <= 5 * e ->
  Rabs (c - C) <= e -> Rabs C <= 1 ->
  Rabs (fmul s c - sin (PI / 3) * C) <= 8 * e.
Proof.
  intros Hs Hc HC. pose proof e_nonneg as Hn.
  pose proof (SIN_bound (PI / 3)) as HS.
  assert (HS' : Rabs (sin (PI / 3)) <= 1) by (apply Rabs_le; lra).
  pose proof (prod_close _ _ _ _ _ _ Hs Hc HS' HC) as Hp.
  assert (Hm : Rabs (fmul s c - s * c) <= e).
  { apply abs_le_inv in Hs, Hc, HC.
    apply (acc_fmul ops e Hacc); apply Rabs_le; lra. }
  apply abs_le_inv in Hp, Hm. apply Rabs_le. nra.
Qed.

(** The two horizontal coordinates of a point lie near the circle of
    squared radius 3/4. *)
Lemma ring_close (s t : R) :
  Rabs (s - sin (PI / 3)) <= 5 * e -> Rabs t <= 16 ->
  Rabs (fmul s (fcos t) * fmul s (fcos t) +
        fmul s (fsin t) * fmul s (fsin t) - 3 / 4) <= 48 * e.
Proof.
  intros Hs Ht. pose proof e_nonneg as Hn.
  pose proof (SIN_bound (PI / 3)) as HS.
  pose proof (SIN_bound t) as Hst. pose proof (COS_bound t) as Hct.
  assert (Hx := coord_close s (fcos t) (cos t) Hs
                  (acc_fcos ops e Hacc t Ht) ltac:(apply Rabs_le; lra)).
  assert (Hy := coord_close s (fsin t) (sin t) Hs
                  (acc_fsin ops e Hacc t Ht) ltac:(apply Rabs_le; lra)).
  assert (HX : Rabs (sin (PI / 3) * cos t) <= 1) by (apply Rabs_le; nra).
  assert (HY : Rabs (sin (PI / 3) * sin t) <= 1) by (apply Rabs_le; nra).
  apply sq_close in Hx; [|exact HX|lra].
  apply sq_close in Hy; [|exact HY|lra].
  apply abs_le_inv in Hx, Hy.
  pose proof sin_PI3_sq as Hsq. pose proof (sin2_cos2 t) as Hsc.
  unfold Rsqr in Hsc.
  assert (Hc : sin (PI / 3) * cos t * (sin (PI / 3) * cos t) +
               sin (PI / 3) * sin t * (sin (PI / 3) * sin t) = 3 / 4).
  { transitivity (sin (PI / 3) * sin (PI / 3) *
                  (sin t * sin t + cos t * cos t)); [ring|].
    rewrite Hsc, Hsq. ring. }
  apply Rabs_le. lra.
Qed.

End Rounded.

Section RoundedPoints.
Import RealFacts.
Local Open Scope R_scope.

Context (ops : NumOps R) (e : R).
Hypothesis Hacc : Accurate ops e.
Hypothesis He : e <= / 100.

Lemma power_point_close (n i : nat) :
  (i < 2 ^ n)%nat ->
  Rabs (height (power_point n i) - 1 / 2) <= 3 * e /\
  Rabs (horizontal_sq (power_point n i) - 3 / 4) <= 48 * e /\
  Rabs (horizontal_sq (power_point n i) +
        height (power_point n i) * height (power_point n i) - 1) <= 57 * e.
Proof.
  intros Hi. unfold power_point, height, horizontal_sq.
  pose proof (e_nonneg ops e Hacc) as Hn.
  pose proof (cos_phi_close ops e Hacc He) as Hz.
  assert (Hs : Rabs (fsin phi - sin (PI / 3)) <= 5 * e).
  { pose proof (sin_phi_close ops e Hacc He). lra. }
  pose proof (ring_close ops e Hacc He _ _ Hs
                (theta_range ops e Hacc He n i Hi)) as Hr.
  split; [exact Hz|]. split; [exact Hr|].
  assert (Hzz : Rabs (fcos phi * fcos phi - 1 / 2 * (1 / 2)) <= 3 * (3 * e)).
  { apply sq_close; [exact Hz | apply Rabs_le; lra | lra]. }
  apply abs_le_inv in Hr, Hzz. apply Rabs_le. lra.
Qed.

Lemma binary_point_close (n i : nat) :
  (i < 2 ^ n)%nat ->
  Rabs (height (binary_point n i) + 1 / 2) <= 5 * e /\
  Rabs (horizontal_sq (binary_point n i) - 3 / 4) <= 48 * e /\
  Rabs (horizontal_sq (binary_point n i) +
        height (binary_point n i) * height (binary_point n i) - 1)
    <= 63 * e.
Proof.
  intros Hi. unfold binary_point, height, horizontal_sq.
  pose proof (e_nonneg ops e Hacc) as Hn.
  pose proof (cos_phi2_close ops e Hacc He) as Hz.
  pose proof (ring_close ops e Hacc He _ _ (sin_phi2_close ops e Hacc He)
                (theta_range ops e Hacc He n i Hi)) as Hr.
  split; [exact Hz|]. split; [exact Hr|].
  assert (Hzz : Rabs (fcos phi2 * fcos phi2 - - (1 / 2) * - (1 / 2))
                <= 3 * (5 * e)).
  { apply sq_close; [|apply Rabs_le; lra | lra].
    replace (fcos phi2 - - (1 / 2)) with (fcos phi2 + 1 / 2) by ring.
    exact Hz. }
  apply abs_le_inv in Hr, Hzz. apply Rabs_le. lra.
Qed.


End RoundedPoints.

(** Exact arithmetic is rounded arithmetic without error. *)
Lemma RealOps_accurate (e : R) : (0 <= e)%R -> Accurate RealOps e.
Proof.
  intros He.
  constructor; intros; simpl;
    try reflexivity;
    match goal with
    | |- (Rabs ?d <= _)%R =>
        replace d with 0%R by ring; rewrite Rabs_R0; exact He
    end.
Qed.



(** C5. Let the worker compute in an arithmetic that is accurate to [e],
    with [e] at most [1e-11] (exact arithmetic is the case [e = 0]).  Every
    power-set point it emits has the one height [cos (pi / 3)] computed by
    the worker, within [63 * e] of 1/2, has [x * x + y * y] within [63 * e]
    of 3/4 and lies within [63 * e] of the unit sphere; every binary point
    has its height within [63 * e] of -1/2 and the same two other
    properties; and [63 * e] is below [1e-9].  This holds for every index
    and every size of the base set. *)
Theorem points_lie_on_two_parallels (ops : NumOps R) (e : R) (w : Worker)
    (interrupted : nat -> bool) (p : Payload R) :
  Accurate ops e ->
  (e <= / 10 ^ 11)%R ->
  run w interrupted = Some p ->
  (forall pt, In pt (power_set_positions p) ->
     height pt = fcos (fdiv fpi (of_int 3)) /\
     (Rabs (height pt - 1 / 2) <= 63 * e)%R /\
     (Rabs (horizontal_sq pt - 3 / 4) <= 63 * e)%R /\
     (Rabs (horizontal_sq pt + height pt * height pt - 1) <= 63 * e)%R) /\
  (forall pt, In pt (binary_positions p) ->
     height pt = fcos (fsub fpi (fdiv fpi (of_int 3))) /\
     (Rabs (height pt + 1 / 2) <= 63 * e)%R /\
     (Rabs (horizontal_sq pt - 3 / 4) <= 63 * e)%R /\
     (Rabs (horizontal_sq pt + height pt * height pt - 1) <= 63 * e)%R) /\
  (63 * e <= / 10 ^ 9)%R.
Proof.
  intros Hacc He Hrun.
  apply run_emits_payload_of in Hrun. subst p.
  pose proof (e_nonneg ops e Hacc) as Hn.
  assert (He' : (e <= / 100)%R) by lra.
  split; [|split; [|lra]].
  - intros pt Hin. unfold payload_of in Hin. simpl in Hin.
    apply in_map_iff in Hin. destruct Hin as (i & <- & Hi).
    apply in_seq in Hi.
    destruct (power_point_close ops e Hacc He' (List.length (w_base_set w)) i
                ltac:(lia)) as (H1 & H2 & H3).
    split; [reflexivity|]. repeat split; lra.
  - intros pt Hin. unfold payload_of in Hin. simpl in Hin.
    apply in_map_iff in Hin. destruct Hin as (i & <- & Hi).
    apply in_seq in Hi.
    destruct (binary_point_close ops e Hacc He' (List.length (w_base_set w)) i
                ltac:(lia)) as (H1 & H2 & H3).
    split; [reflexivity|]. repeat split; lra.
Qed.

Lemma points_lie_on_two_parallels_witness :
  let p := payload_of (ops := RealOps)
             (mkWorker (default_base_set 1) 0 true true) in
  (forall pt, In pt (power_set_positions p) ->
     height pt = cos (PI / IZR 3) /\
     (Rabs (height pt - 1 / 2) <= 63 * 0)%R /\
     (Rabs (horizontal_sq pt - 3 / 4) <= 63 * 0)%R /\
     (Rabs (horizontal_sq pt + height pt * height pt - 1) <= 63 * 0)%R) /\
  (forall pt, In pt (binary_positions p) ->
     height pt = cos (PI - PI / IZR 3) /\
     (Rabs (height pt + 1 / 2) <= 63 * 0)%R /\
     (Rabs (horizontal_sq pt - 3 / 4) <= 63 * 0)%R /\
     (Rabs (horizontal_sq pt + height pt * height pt - 1) <= 63 * 0)%R) /\
  (63 * 0 <= / 10 ^ 9)%R.
Proof.
  intros p.
  apply (points_lie_on_two_parallels RealOps 0
           (mkWorker (default_base_set 1) 0 true true) (fun _ => false) p).
  - apply RealOps_accurate. lra.
  - lra.
  - reflexivity.
Defined.



(** * Further properties of the worker *)

(** X1. A run emits its signal exactly when none of its [2 ^ n + 1] polls
    of the interruption flag sees it set; the payload is then the complete
    one, with [2 ^ n] positions of each kind and the size, selected index
    and display flags the worker was built with. *)
Theorem run_emits_iff_never_interrupted {F : Type} {ops : NumOps F}
    (w : Worker) (interrupted : nat -> bool) :
  let n := List.length (w_base_set w) in
  ((exists p, run w interrupted = Some p) <->
   (forall k, k <= 2 ^ n -> interrupted k = false)) /\
  (forall p, run w interrupted = Some p ->
     List.length (power_set_positions p) = 2 ^ n /\
     List.length (binary_positions p) = 2 ^ n /\
     p_n p = n /\
     p_current_index p = w_current_index w /\
     p_show_labels p = w_show_labels w /\
     p_show_connections p = w_show_connections w).
Proof.
  intros n. split; [split|].
  - intros [p Hp] k Hk.
    destruct (interrupted k) eqn:E; [|reflexivity].
    unfold run in Hp. fold n in Hp.
    destruct (Nat.eq_dec k (2 ^ n)) as [->|Hne].
    + rewrite E in Hp. destruct (run_loop _ _ _ _ _) as [[? ?]|];
        discriminate.
    + rewrite (run_loop_interrupted _ _ _ _ _ k) in Hp;
        [discriminate | apply in_seq; lia | exact E].
  - intros Hclear. exists (payload_of w). apply run_clear. exact Hclear.
  - intros p Hp. apply run_emits_payload_of in Hp. subst p.
    unfold payload_of. simpl. rewrite !length_map, length_seq.
    repeat split; reflexivity.
Qed.

(** ** No two indices share a place *)

Module AzimuthFacts.
Local Open Scope R_scope.





End AzimuthFacts.



(** * The replay *)

Lemma toggle_consistent (a : Animation) :
  anim_consistent a -> anim_consistent (toggle_animation a).
Proof.
  intros (Ht & Hb & Hs). unfold toggle_animation, anim_consistent.
  destruct (animation_running a); simpl; repeat split; assumption.
Qed.

Lemma py_getitem_In {A : Type} (l : list A) (i : Z) (x : A) :
  py_getitem l i = Some x -> In x l.
Proof.
  unfold py_getitem.
  destruct (0 <=? i)%Z; [apply nth_error_In|].
  destruct (- Z.of_nat (List.length l) <=? i)%Z;
    [apply nth_error_In | discriminate].
Qed.

Lemma speed_changed_consistent (index : Z) (a a' : Animation) :
  anim_consistent a -> speed_changed index a = Some a' -> anim_consistent a'.
Proof.
  intros (Ht & Hb & Hs) H. unfold speed_changed in H.
  destruct (py_getitem speeds index) as [ms|] eqn:E; [|discriminate].
  injection H as <-. apply py_getitem_In in E.
  unfold anim_consistent. simpl.
  destruct (animation_running a); repeat split; assumption.
Qed.

Lemma next_step_consistent (base_set : list string) (a : Animation) :
  anim_consistent a ->
  anim_consistent (fst (next_animation_step base_set a)).
Proof. intros Hc. exact Hc. Qed.

Lemma anim_step_consistent (a a' : Animation) (ev : AnimEvent) :
  anim_consistent a -> anim_step a ev = Some a' -> anim_consistent a'.
Proof.
  intros Hc H. destruct ev as [|index|bs]; unfold anim_step in H.
  - injection H as <-. apply toggle_consistent. exact Hc.
  - apply (speed_changed_consistent index a); assumption.
  - destruct (timer a) eqn:Et; [|discriminate]. injection H as <-.
    apply next_step_consistent. exact Hc.
Qed.

(** X3. Whatever sequence of button clicks, speed changes and timer
    firings the replay goes through from its initial state, the timer is
    active exactly while the replay is marked running, its interval is the
    current speed, the speed is 2000, 1000 or 500 ms, and the button reads
    "Stop Animation" while running and "Start Animation" otherwise. *)
Theorem replay_stays_consistent (evs : list AnimEvent) (a : Animation) :
  anim_steps initial_animation evs = Some a -> anim_consistent a.
Proof.
  assert (Hgen : forall evs a0 a1,
             anim_consistent a0 -> anim_steps a0 evs = Some a1 ->
             anim_consistent a1).
  { clear. induction evs as [|ev evs IH]; intros a0 a1 Hc H; simpl in H.
    - injection H as <-. exact Hc.
    - destruct (anim_step a0 ev) as [a'|] eqn:E; [|discriminate].
      apply (IH a' a1); [|exact H].
      apply (anim_step_consistent a0 a' ev); assumption. }
  apply Hgen. unfold anim_consistent. simpl.
  repeat split; try reflexivity. right. left. reflexivity.
Qed.

Lemma replay_stays_consistent_witness :
  anim_consistent (mkAnimation 500 1 true (Some 500) "Stop Animation").
Proof.
  apply (replay_stays_consistent
           [Clicked; SpeedIndex (-1); Timeout (default_base_set 3)]).
  reflexivity.
Defined.

(** The rows selected by [k] firings of the timer. *)
Lemma ticks_rows (base_set : list string) (k : nat) (a : Animation) :
  let m := 2 ^ List.length base_set in
  snd (ticks base_set k a) =
    map (fun j => (animation_index a + 1 + j) mod m) (seq 0 k) /\
  animation_index (fst (ticks base_set k a)) = (animation_index a + k) mod m
    \/ k = 0.
Proof.
  intros m. revert a. induction k as [|k IH]; intros a; [now right|].
  left. simpl ticks. unfold next_animation_step. fold m.
  set (a' := mkAnimation _ _ _ _ _).
  specialize (IH a'). destruct (ticks base_set k a') as [a'' rows] eqn:E.
  simpl. rewrite <- seq_shift, map_map.
  assert (Hidx : forall j,
             (animation_index a' + 1 + j) mod m =
             (animation_index a + 1 + S j) mod m).
  { intros j. unfold a'. simpl.
    replace ((animation_index a + 1) mod m + 1 + j)
      with ((animation_index a + 1) mod m + (1 + j)) by lia.
    rewrite Nat.Div0.add_mod_idemp_l. f_equal; lia. }
  destruct IH as [[Hrows Hfin]| ->].
  - simpl in Hrows, Hfin. split.
    + f_equal; [f_equal; lia|]. rewrite Hrows.
      apply map_ext. exact Hidx.
    + rewrite Hfin. unfold a'. simpl.
      rewrite Nat.Div0.add_mod_idemp_l. f_equal; lia.
  - simpl in E. injection E as <- <-. simpl. split.
    + f_equal. f_equal; lia.
    + unfold a'. simpl. f_equal; lia.
Qed.

Lemma mod_shift_injective (m c j j' : nat) :
  j < m -> j' < m -> (c + j) mod m = (c + j') mod m -> j = j'.
Proof.
  intros Hj Hj' H.
  pose proof (Nat.div_mod_eq (c + j) m) as E1.
  pose proof (Nat.div_mod_eq (c + j') m) as E2.
  rewrite H in E1.
  set (q := (c + j) / m) in *. set (q' := (c + j') / m) in *.
  set (r := (c + j') mod m) in *.
  assert (q = q') by nia. nia.
Qed.

(** X4. From any replay state, [2 ^ n] firings of the timer in a row
    select every row of the table exactly once, in increasing order modulo
    [2 ^ n] beginning with the row after the current index; [k] firings
    select the rows [(index + 1 + j) mod 2 ^ n] for [j < k].  Started by the
    button, the replay therefore shows row 0 last. *)
Theorem replay_visits_every_row (base_set : list string) (a : Animation) :
  let m := 2 ^ List.length base_set in
  Permutation (snd (ticks base_set m a)) (seq 0 m) /\
  (forall k, snd (ticks base_set k a) =
             map (fun j => (animation_index a + 1 + j) mod m) (seq 0 k)) /\
  animation_index (fst (ticks base_set m a)) = animation_index a mod m /\
  snd (ticks base_set m (toggle_animation initial_animation)) =
    (seq 1 (m - 1) ++ [0])%list.
Proof.
  intros m.
  assert (Hm : 0 < m) by (unfold m; apply Nat.neq_0_lt_0, Nat.pow_nonzero; lia).
  assert (Hrows : forall k b, snd (ticks base_set k b) =
             map (fun j => (animation_index b + 1 + j) mod m) (seq 0 k)).
  { intros k b. destruct (ticks_rows base_set k b) as [[H _]| ->];
      [exact H | reflexivity]. }
  split; [|split; [intros k; apply Hrows |split]].
  - rewrite Hrows. apply NoDup_Permutation_bis.
    + apply Injective_map_NoDup_in; [|apply seq_NoDup].
      intros j j' Hj Hj' E. apply in_seq in Hj, Hj'.
      apply (mod_shift_injective m (animation_index a + 1)); lia || exact E.
    + rewrite length_map. reflexivity.
    + intros x Hx. apply in_map_iff in Hx. destruct Hx as (j & <- & _).
      apply in_seq. split; [lia|]. simpl. apply Nat.mod_upper_bound. lia.
  - destruct (ticks_rows base_set m a) as [[_ H]|H]; [|lia].
    fold m in H. rewrite H.
    rewrite <- Nat.Div0.add_mod_idemp_r, Nat.Div0.mod_same, Nat.add_0_r.
    reflexivity.
  - rewrite Hrows. simpl animation_index.
    destruct m as [|m']; [lia|].
    rewrite seq_S, map_app. cbn [map].
    replace (S m' - 1) with m' by lia. f_equal.
    + rewrite <- seq_shift. apply map_ext_in. intros j Hj.
      apply in_seq in Hj. rewrite Nat.mod_small; lia.
    + f_equal. replace (0 + 1 + (0 + m')) with (S m') by lia.
      apply Nat.Div0.mod_same.
Qed.

(** * Text handling *)

Module TextFacts.
Import Py PyFacts PyText.

Section StripFrontFacts.
Variable w1 : ascii -> bool.
Variable w2 : ascii -> ascii -> bool.
Variable w3 : ascii -> ascii -> ascii -> bool.

Local Abbreviation sf := (strip_front w1 w2 w3).
Local Abbreviation sw := (starts_with_ws w1 w2 w3).

(** What is left is the end of the string. *)
Lemma strip_front_suffix (s : string) : exists u, s = u ++ sf s.
Proof.
  remember (String.length s) as n eqn:Hn.
  assert (Hle : String.length s <= n) by lia. clear Hn.
  revert s Hle. induction n as [|n IH]; intros s Hle.
  - destruct s; [now exists EmptyString | simpl in Hle; lia].
  - destruct s as [|c1 r1]; [now exists EmptyString|].
    simpl in Hle. simpl. destruct (w1 c1).
    + destruct (IH r1 ltac:(lia)) as [u Hu].
      exists (String c1 u). simpl. now rewrite <- Hu.
    + destruct r1 as [|c2 r2]; [now exists EmptyString|].
      simpl in Hle. destruct (w2 c1 c2).
      * destruct (IH r2 ltac:(lia)) as [u Hu].
        exists (String c1 (String c2 u)). simpl. now rewrite <- Hu.
      * destruct r2 as [|c3 r3]; [now exists EmptyString|].
        simpl in Hle. destruct (w3 c1 c2 c3); [|now exists EmptyString].
        destruct (IH r3 ltac:(lia)) as [u Hu].
        exists (String c1 (String c2 (String c3 u))). simpl.
        now rewrite <- Hu.
Qed.

Lemma strip_front_length (s : string) :
  String.length (sf s) <= String.length s.
Proof.
  destruct (strip_front_suffix s) as [u Hu].
  rewrite Hu at 2. rewrite length_append. lia.
Qed.

Lemma strip_front_fixed (s : string) : sw s = false -> sf s = s.
Proof.
  destruct s as [|c1 [|c2 [|c3 r3]]]; simpl; intros H;
    repeat (apply orb_false_elim in H; destruct H as [? H]);
    repeat match goal with
           | E : ?b = false |- context [if ?b then _ else _] => rewrite E
           end; try reflexivity; try (rewrite H; reflexivity).
Qed.

Lemma strip_front_shorter (s : string) :
  sw s = true -> String.length (sf s) < String.length s.
Proof.
  destruct s as [|c1 r1]; [discriminate|]. simpl.
  destruct (w1 c1).
  - intros _. pose proof (strip_front_length r1). lia.
  - destruct r1 as [|c2 r2]; [discriminate|]. simpl.
    destruct (w2 c1 c2).
    + intros _. pose proof (strip_front_length r2). lia.
    + destruct r2 as [|c3 r3]; [discriminate|]. simpl.
      destruct (w3 c1 c2 c3); [|discriminate].
      intros _. pose proof (strip_front_length r3). lia.
Qed.

Lemma strip_front_fixed_inv (s : string) : sf s = s -> sw s = false.
Proof.
  intros H. destruct (sw s) eqn:E; [|reflexivity].
  apply strip_front_shorter in E. rewrite H in E. lia.
Qed.

(** What is left does not begin with white space. *)
Lemma strip_front_clean (s : string) : sw (sf s) = false.
Proof.
  remember (String.length s) as n eqn:Hn.
  assert (Hle : String.length s <= n) by lia. clear Hn.
  revert s Hle. induction n as [|n IH]; intros s Hle.
  - destruct s; [reflexivity | simpl in Hle; lia].
  - destruct s as [|c1 r1]; [reflexivity|].
    simpl in Hle. simpl sf. destruct (w1 c1) eqn:E1.
    + apply IH. lia.
    + destruct r1 as [|c2 r2]; [simpl; now rewrite E1|].
      simpl in Hle. destruct (w2 c1 c2) eqn:E2.
      * apply IH. lia.
      * destruct r2 as [|c3 r3]; [simpl; now rewrite E1, E2|].
        simpl in Hle. destruct (w3 c1 c2 c3) eqn:E3.
        -- apply IH. lia.
        -- simpl. now rewrite E1, E2, E3.
Qed.

Lemma strip_front_idempotent (s : string) : sf (sf s) = sf s.
Proof. apply strip_front_fixed, strip_front_clean. Qed.

(** A beginning that does not start with white space. *)
Lemma starts_with_ws_prefix (e t : string) :
  sw e = true -> sw (e ++ t) = true.
Proof.
  destruct e as [|c1 [|c2 [|c3 r3]]]; simpl; try discriminate.
  - rewrite orb_false_r. intros ->. reflexivity.
  - rewrite orb_false_r. intros H.
    apply orb_true_iff in H. destruct H as [-> | ->]; [reflexivity|].
    destruct t; simpl; now rewrite ?orb_true_r.
  - tauto.
Qed.

Lemma starts_with_ws_inert (e t : string) (b : ascii) :
  inert w2 w3 b -> e <> EmptyString -> sw e = false ->
  sw (e ++ String b t) = false.
Proof.
  intros (H2 & H3m & H3e) Hne.
  destruct e as [|c1 [|c2 [|c3 r3]]]; [congruence| | |]; simpl.
  - rewrite orb_false_r. intros ->. rewrite H2. simpl.
    destruct t; [reflexivity | apply H3m].
  - rewrite orb_false_r. intros H. apply orb_false_elim in H.
    destruct H as [-> ->]. simpl. apply H3e.
  - tauto.
Qed.

Lemma strip_front_inert (e t : string) (b : ascii) :
  inert w2 w3 b -> e <> EmptyString -> sf e = e ->
  sf (e ++ String b t) = e ++ String b t.
Proof.
  intros Hb Hne He. apply strip_front_fixed.
  apply starts_with_ws_inert; [assumption | assumption |].
  apply strip_front_fixed_inv. exact He.
Qed.

End StripFrontFacts.

(** ** Reversal and characters *)

Lemma chars_append (s t : string) :
  list_ascii_of_string (s ++ t) =
  (list_ascii_of_string s ++ list_ascii_of_string t)%list.
Proof. induction s as [|c s IH]; simpl; [reflexivity | now rewrite IH]. Qed.

Lemma rev_append (s t : string) : rev (s ++ t) = rev t ++ rev s.
Proof.
  induction s as [|c s IH]; simpl.
  - now rewrite append_nil_r.
  - now rewrite IH, append_assoc.
Qed.

Lemma rev_involutive (s : string) : rev (rev s) = s.
Proof.
  induction s as [|c s IH]; simpl; [reflexivity|].
  rewrite rev_append, IH. reflexivity.
Qed.

Lemma rev_injective (s t : string) : rev s = rev t -> s = t.
Proof.
  intros H. rewrite <- (rev_involutive s), H. apply rev_involutive.
Qed.

Lemma chars_rev (s : string) (c : ascii) :
  In c (list_ascii_of_string (rev s)) <-> In c (list_ascii_of_string s).
Proof.
  induction s as [|d s IH]; simpl; [tauto|].
  rewrite chars_append, in_app_iff, IH. simpl. tauto.
Qed.

(** ** [lstrip], [rstrip], [strip] *)

Lemma ascii_inert_front (b : ascii) :
  nat_of_ascii b < 128 -> inert is_ws2 is_ws3 b.
Proof.
  intros Hb. unfold inert, is_ws2, is_ws3.
  set (k := nat_of_ascii b) in *.
  assert (E1 : (k =? 133) = false) by (apply Nat.eqb_neq; lia).
  assert (E2 : (k =? 160) = false) by (apply Nat.eqb_neq; lia).
  assert (E3 : (k =? 154) = false) by (apply Nat.eqb_neq; lia).
  assert (E4 : (k =? 128) = false) by (apply Nat.eqb_neq; lia).
  assert (E5 : (k =? 129) = false) by (apply Nat.eqb_neq; lia).
  assert (E6 : (k =? 159) = false) by (apply Nat.eqb_neq; lia).
  assert (E7 : (k =? 168) = false) by (apply Nat.eqb_neq; lia).
  assert (E8 : (k =? 169) = false) by (apply Nat.eqb_neq; lia).
  assert (E9 : (k =? 175) = false) by (apply Nat.eqb_neq; lia).
  assert (E0 : (128 <=? k) = false) by (apply Nat.leb_gt; lia).
  repeat split; intros; cbv zeta;
    rewrite ?E1, ?E2, ?E3, ?E4, ?E5, ?E6, ?E7, ?E8, ?E9, ?E0;
    rewrite ?andb_false_r, ?andb_false_l, ?orb_false_r; reflexivity.
Qed.

Lemma ascii_inert_back (b : ascii) :
  nat_of_ascii b < 128 ->
  inert (fun c1 c2 => is_ws2 c2 c1) (fun c1 c2 c3 => is_ws3 c3 c2 c1) b.
Proof.
  intros Hb. unfold inert, is_ws2, is_ws3.
  set (k := nat_of_ascii b) in *.
  assert (E1 : (k =? 194) = false) by (apply Nat.eqb_neq; lia).
  assert (E2 : (k =? 225) = false) by (apply Nat.eqb_neq; lia).
  assert (E3 : (k =? 226) = false) by (apply Nat.eqb_neq; lia).
  assert (E4 : (k =? 227) = false) by (apply Nat.eqb_neq; lia).
  assert (E5 : (k =? 154) = false) by (apply Nat.eqb_neq; lia).
  assert (E6 : (k =? 128) = false) by (apply Nat.eqb_neq; lia).
  assert (E7 : (k =? 129) = false) by (apply Nat.eqb_neq; lia).
  repeat split; intros; cbv zeta;
    rewrite ?E1, ?E2, ?E3, ?E4, ?E5, ?E6, ?E7;
    rewrite ?andb_false_r, ?andb_false_l, ?orb_false_r; reflexivity.
Qed.

Lemma lstrip_space (s : string) : lstrip (String " " s) = lstrip s.
Proof. reflexivity. Qed.

Lemma rstrip_fixed_rev (s : string) :
  rstrip s = s ->
  strip_front is_ws1 (fun c1 c2 => is_ws2 c2 c1)
    (fun c1 c2 c3 => is_ws3 c3 c2 c1) (rev s) = rev s.
Proof.
  unfold rstrip. intros H. apply (f_equal rev) in H.
  rewrite rev_involutive in H. exact H.
Qed.

(** [strip] leaves a string that [strip] does not change. *)
Lemma strip_is_stripped (p : string) :
  lstrip (strip p) = strip p /\ rstrip (strip p) = strip p.
Proof.
  unfold strip. split.
  - apply strip_front_fixed.
    destruct (starts_with_ws is_ws1 is_ws2 is_ws3 (rstrip (lstrip p)))
      eqn:E; [|reflexivity].
    exfalso. unfold rstrip in E.
    destruct (strip_front_suffix is_ws1 (fun c1 c2 => is_ws2 c2 c1)
                (fun c1 c2 c3 => is_ws3 c3 c2 c1) (rev (lstrip p)))
      as [u Hu].
    apply (f_equal rev) in Hu. rewrite rev_involutive, rev_append in Hu.
    apply (starts_with_ws_prefix _ _ _ _ (rev u)) in E.
    rewrite <- Hu in E. unfold lstrip in E.
    rewrite strip_front_clean in E. discriminate.
  - unfold rstrip at 1 2. rewrite rev_involutive.
    rewrite strip_front_idempotent. reflexivity.
Qed.

Lemma strip_chars (p : string) (c : ascii) :
  In c (list_ascii_of_string (strip p)) -> In c (list_ascii_of_string p).
Proof.
  unfold strip, rstrip, lstrip. intros H.
  apply (proj1 (chars_rev _ _)) in H.
  destruct (strip_front_suffix is_ws1 (fun c1 c2 => is_ws2 c2 c1)
              (fun c1 c2 c3 => is_ws3 c3 c2 c1)
              (rev (strip_front is_ws1 is_ws2 is_ws3 p))) as [u Hu].
  assert (H1 : In c (list_ascii_of_string
                       (rev (strip_front is_ws1 is_ws2 is_ws3 p)))).
  { rewrite Hu, chars_append, in_app_iff. now right. }
  apply (proj1 (chars_rev _ _)) in H1.
  destruct (strip_front_suffix is_ws1 is_ws2 is_ws3 p) as [v Hv].
  rewrite Hv, chars_append, in_app_iff. now right.
Qed.

Lemma strip_clean (l : string) : clean_label l -> strip l = l.
Proof.
  intros (_ & Hl & Hr & _). unfold strip. rewrite Hl. exact Hr.
Qed.

Lemma strip_space_clean (l : string) :
  clean_label l -> strip (String " " l) = l.
Proof.
  intros H. unfold strip. rewrite lstrip_space. apply strip_clean. exact H.
Qed.

(** A stripped piece that is not empty is a clean label when it has no
    comma. *)
Lemma strip_clean_label (p : string) :
  ~ In ","%char (list_ascii_of_string p) ->
  truthy (strip p) = true -> clean_label (strip p).
Proof.
  intros Hc Ht. destruct (strip_is_stripped p) as [Hl Hr].
  repeat split; try assumption.
  - intros E. rewrite E in Ht. discriminate.
  - intros Hin. apply Hc. apply strip_chars. exact Hin.
Qed.

(** ** [split] *)

Lemma split_comma_nonempty (s : string) : split_comma s <> [].
Proof.
  destruct s as [|c s]; simpl; [discriminate|].
  destruct (Ascii.eqb c ","); [discriminate|].
  destruct (split_comma s); discriminate.
Qed.

Lemma split_comma_plain (l : string) :
  ~ In ","%char (list_ascii_of_string l) -> split_comma l = [l].
Proof.
  induction l as [|c l IH]; simpl; intros H; [reflexivity|].
  destruct (Ascii.eqb_spec c ",") as [->|Hc]; [exfalso; apply H; now left|].
  rewrite IH by tauto. reflexivity.
Qed.

Lemma split_comma_append (l t : string) :
  ~ In ","%char (list_ascii_of_string l) ->
  split_comma (l ++ String "," t) = l :: split_comma t.
Proof.
  induction l as [|c l IH]; simpl; intros H; [reflexivity|].
  destruct (Ascii.eqb_spec c ",") as [->|Hc]; [exfalso; apply H; now left|].
  rewrite IH by tauto. reflexivity.
Qed.

Lemma split_comma_pieces (s p : string) :
  In p (split_comma s) -> ~ In ","%char (list_ascii_of_string p).
Proof.
  revert p; induction s as [|c s IH]; simpl; intros p Hin.
  - destruct Hin as [<-|[]]. simpl. tauto.
  - destruct (Ascii.eqb_spec c ",") as [->|Hc].
    + destruct Hin as [<-|Hin]; [simpl; tauto | now apply IH].
    + pose proof (split_comma_nonempty s) as Hne.
      destruct (split_comma s) as [|q qs]; [congruence|].
      destruct Hin as [<-|Hin].
      * simpl. intros [E|E]; [congruence|].
        apply (IH q); [now left | exact E].
      * apply IH. now right.
Qed.

End TextFacts.

(** * The configuration handlers *)

Module UiFacts.
Import Py PyFacts PyText TextFacts FormatFacts EnumFacts.

Lemma clean_no_comma (l : string) :
  clean_label l -> ~ In ","%char (list_ascii_of_string l).
Proof. intros (_ & _ & _ & H). exact H. Qed.

Lemma clean_nonempty (l : string) : clean_label l -> truthy l = true.
Proof. intros (H & _). destruct l; [congruence | reflexivity]. Qed.

Lemma join_cons2 (l l2 : string) (ls : list string) :
  join ", " (l :: l2 :: ls) = l ++ String "," (String " " (join ", " (l2 :: ls))).
Proof. reflexivity. Qed.

(** The pieces of a joined list of clean labels. *)
Lemma split_join (ls : list string) (pre l : string) :
  ~ In ","%char (list_ascii_of_string pre) ->
  Forall clean_label (l :: ls) ->
  split_comma (pre ++ join ", " (l :: ls)) =
  (pre ++ l) :: map (String " ") ls.
Proof.
  revert pre l. induction ls as [|l2 ls IH]; intros pre l Hpre Hall.
  - simpl. apply split_comma_plain. rewrite chars_append, in_app_iff.
    inversion Hall as [|? ? Hl _]. apply clean_no_comma in Hl. tauto.
  - rewrite join_cons2, <- append_assoc.
    inversion Hall as [|? ? Hl Hrest]; subst.
    rewrite split_comma_append.
    + f_equal. apply (IH (String " " EmptyString) l2); [|exact Hrest].
      simpl. intros [E|[]]. discriminate.
    + rewrite chars_append, in_app_iff. apply clean_no_comma in Hl. tauto.
Qed.

Lemma map_strip_spaced (ls : list string) :
  Forall clean_label ls -> map strip (map (String " ") ls) = ls.
Proof.
  induction 1 as [|l ls Hl _ IH]; simpl; [reflexivity|].
  rewrite IH. f_equal. apply (strip_space_clean l Hl).
Qed.

Lemma filter_truthy_clean (ls : list string) :
  Forall clean_label ls -> filter truthy ls = ls.
Proof.
  induction 1 as [|l ls Hl _ IH]; simpl; [reflexivity|].
  rewrite (clean_nonempty l Hl), IH. reflexivity.
Qed.

(** The labels read back from their joined text. *)
Lemma parse_join (ls : list string) :
  Forall clean_label ls -> parse_elements (join ", " ls) = ls.
Proof.
  intros Hall. unfold parse_elements. destruct ls as [|l ls].
  - reflexivity.
  - assert (Hs : split_comma (join ", " (l :: ls)) =
                 l :: map (String " ") ls)
      by (apply (split_join ls EmptyString l); [simpl; tauto | exact Hall]).
    rewrite Hs.
    inversion Hall as [|? ? Hl Hrest]; subst.
    simpl map. rewrite (strip_clean l Hl), map_strip_spaced by exact Hrest.
    apply filter_truthy_clean. exact Hall.
Qed.

(** Whatever the text, the labels read from it are clean. *)
Lemma parse_elements_clean (text : string) :
  Forall clean_label (parse_elements text).
Proof.
  apply Forall_forall. intros e He. unfold parse_elements in He.
  apply filter_In in He. destruct He as [He Ht].
  apply in_map_iff in He. destruct He as (p & <- & Hp).
  apply strip_clean_label; [|exact Ht].
  apply (split_comma_pieces text). exact Hp.
Qed.

Lemma default_label_clean (i : nat) :
  i < 8 -> clean_label ("x" ++ nth i subscripts EmptyString).
Proof.
  intros Hi.
  do 8 (destruct i as [|i];
        [repeat split; try reflexivity; try discriminate;
         vm_compute; intuition discriminate|]).
  lia.
Qed.

Lemma default_base_set_clean (value : nat) :
  Forall clean_label (default_base_set value).
Proof.
  apply Forall_forall. intros l Hl. unfold default_base_set in Hl.
  apply in_map_iff in Hl. destruct Hl as (i & <- & Hi).
  apply in_seq in Hi. apply default_label_clean. lia.
Qed.

Lemma default_base_set_length (value : nat) :
  List.length (default_base_set value) = Nat.min value 8.
Proof. unfold default_base_set. now rewrite length_map, length_seq. Qed.

(** ** The handlers in closed form *)

Lemma set_size_changed_S (fuel value : nat) (ui : Ui) :
  set_size_changed (S fuel) value ui =
  let ui1 := with_base_set (default_base_set value) value ui in
  let text := join ", " (ui_base_set ui1) in
  match (if String.eqb text (elements_text ui1) then Some ui1
         else elements_changed fuel text (with_text text ui1)) with
  | None => None
  | Some ui2 => Some (with_selection [] (zeros value) ui2)
  end.
Proof. reflexivity. Qed.

Lemma elements_changed_S (fuel : nat) (text : string) (ui : Ui) :
  elements_changed (S fuel) text ui =
  let elements := parse_elements text in
  if 0 <? List.length elements then
    let base := firstn (Nat.min (List.length elements) 6) elements in
    let ui1 := with_base_set base (List.length base) ui in
    let v := spinner_clamp (ui_set_size ui1) in
    match (if v =? spinner_value ui1 then Some ui1
           else set_size_changed fuel v (with_spinner v ui1)) with
    | None => None
    | Some ui2 => Some (with_selection [] (zeros (ui_set_size ui2)) ui2)
    end
  else Some ui.
Proof. reflexivity. Qed.

Lemma firstn_min_length {A : Type} (l : list A) (k : nat) :
  firstn (Nat.min (List.length l) k) l = firstn k l.
Proof.
  destruct (Nat.le_ge_cases (List.length l) k) as [H|H].
  - rewrite Nat.min_l by exact H.
    rewrite firstn_all, firstn_all2 by exact H. reflexivity.
  - rewrite Nat.min_r by exact H. reflexivity.
Qed.

Lemma zeros_format (n : nat) : 1 <= n -> zeros n = format_0nb 0 n.
Proof.
  intros Hn. unfold format_0nb. change (bin 0) with "0".
  simpl String.length. rewrite zeros_snoc. f_equal. lia.
Qed.

Lemma set_size_changed_closed (fuel value : nat) (ui : Ui) :
  1 <= value <= 6 -> spinner_value ui = value ->
  set_size_changed (S (S fuel)) value ui = Some (sized value).
Proof.
  intros Hv Hsp. rewrite set_size_changed_S. cbv zeta.
  cbn [with_base_set ui_base_set elements_text].
  destruct (String.eqb_spec (join ", " (default_base_set value))
              (elements_text ui)) as [E|E].
  - unfold with_selection, sized. simpl. rewrite Hsp, <- E. reflexivity.
  - rewrite elements_changed_S. cbv zeta.
    rewrite parse_join by apply default_base_set_clean.
    rewrite default_base_set_length.
    replace (Nat.min value 8) with value by lia.
    assert (H0 : (0 <? value) = true) by (apply Nat.ltb_lt; lia).
    rewrite H0. replace (Nat.min value 6) with value by lia.
    assert (Hf : firstn value (default_base_set value) =
                 default_base_set value).
    { apply firstn_all2. rewrite default_base_set_length. lia. }
    rewrite Hf. cbn [with_base_set with_text ui_set_size spinner_value].
    rewrite default_base_set_length.
    replace (Nat.min value 8) with value by lia.
    assert (Hc : spinner_clamp value = value)
      by (unfold spinner_clamp; lia).
    rewrite Hc, Hsp, Nat.eqb_refl.
    unfold with_selection, sized. simpl. rewrite Hsp. reflexivity.
Qed.

Lemma elements_changed_closed (fuel : nat) (text : string) (ui : Ui) :
  elements_text ui = text ->
  elements_changed (S (S (S fuel))) text ui =
  Some (if 0 <? List.length (parse_elements text) then edited text ui
        else ui).
Proof.
  intros Htext. rewrite elements_changed_S. cbv zeta.
  destruct (0 <? List.length (parse_elements text)) eqn:Hpos;
    [|reflexivity].
  apply Nat.ltb_lt in Hpos. unfold edited. cbv zeta.
  set (els := parse_elements text) in *.
  rewrite firstn_min_length.
  set (k := Nat.min (List.length els) 6).
  assert (Hlen : List.length (firstn 6 els) = k).
  { rewrite length_firstn. unfold k. lia. }
  cbn [with_base_set ui_set_size spinner_value]. rewrite Hlen.
  assert (Hk : 1 <= k <= 6) by (unfold k; lia).
  assert (Hc : spinner_clamp k = k) by (unfold spinner_clamp; lia).
  rewrite Hc.
  destruct (k =? spinner_value ui) eqn:E.
  - unfold with_selection, with_base_set.
    cbn [ui_base_set ui_set_size spinner_value elements_text].
    apply Nat.eqb_eq in E. rewrite <- E, Htext. reflexivity.
  - rewrite set_size_changed_closed by (assumption || reflexivity).
    reflexivity.
Qed.

(** ** The subset read back from the table *)

Lemma drop_last_snoc (s : string) (c : ascii) :
  drop_last (s ++ String c EmptyString) = s.
Proof.
  induction s as [|d s IH]; [reflexivity|].
  simpl. destruct (s ++ String c EmptyString) eqn:E.
  - destruct s; discriminate.
  - rewrite <- IH. reflexivity.
Qed.

Lemma rev_empty (s : string) : rev s = EmptyString -> s = EmptyString.
Proof. intros H. apply rev_injective. exact H. Qed.

Lemma join_truthy (l : string) (ls : list string) :
  clean_label l -> join ", " (l :: ls) <> EmptyString.
Proof.
  intros (Hne & _). destruct ls as [|l2 ls]; [exact Hne|].
  rewrite join_cons2. destruct l; [congruence | discriminate].
Qed.

Lemma lstrip_join (l : string) (ls : list string) :
  Forall clean_label (l :: ls) ->
  lstrip (join ", " (l :: ls)) = join ", " (l :: ls).
Proof.
  intros Hall. inversion Hall as [|? ? Hl _]; subst.
  destruct Hl as (Hne & Hfix & _).
  destruct ls as [|l2 ls]; [exact Hfix|].
  rewrite join_cons2. unfold lstrip.
  apply strip_front_inert; [|exact Hne | exact Hfix].
  apply ascii_inert_front. apply Nat.ltb_lt. reflexivity.
Qed.

Lemma rstrip_join_rev (ls : list string) (l : string) :
  Forall clean_label (l :: ls) ->
  strip_front is_ws1 (fun c1 c2 => is_ws2 c2 c1)
    (fun c1 c2 c3 => is_ws3 c3 c2 c1) (rev (join ", " (l :: ls))) =
  rev (join ", " (l :: ls)).
Proof.
  revert l. induction ls as [|l2 ls IH]; intros l Hall;
    inversion Hall as [|? ? Hl Hrest]; subst.
  - simpl join. apply rstrip_fixed_rev. destruct Hl as (_ & _ & H & _).
    exact H.
  - rewrite join_cons2.
    set (B := join ", " (l2 :: ls)) in *.
    assert (E : rev (l ++ String "," (String " " B)) =
                rev B ++ String " " (String "," (rev l))).
    { rewrite rev_append. simpl rev. rewrite !append_assoc. reflexivity. }
    rewrite E. apply strip_front_inert.
    + apply ascii_inert_back. apply Nat.ltb_lt. reflexivity.
    + intros H. apply rev_empty in H.
      inversion Hrest as [|? ? Hl2 _]; subst.
      apply (join_truthy l2 ls Hl2). exact H.
    + apply IH. exact Hrest.
Qed.

Lemma strip_join (l : string) (ls : list string) :
  Forall clean_label (l :: ls) ->
  strip (join ", " (l :: ls)) = join ", " (l :: ls).
Proof.
  intros Hall. unfold strip. rewrite (lstrip_join l ls Hall).
  unfold rstrip. rewrite (rstrip_join_rev ls l Hall).
  apply rev_involutive.
Qed.

(** [table_selection_changed] reads back the subset that
    [update_power_set] printed. *)
Lemma parse_format_subset (sub : list string) :
  Forall clean_label sub -> parse_subset_str (format_subset sub) = sub.
Proof.
  intros Hall. destruct sub as [|l ls]; [reflexivity|].
  unfold format_subset. cbn [List.length Nat.eqb].
  unfold parse_subset_str.
  change (String.eqb ("{" ++ join ", " (l :: ls) ++ "}") "∅") with false.
  cbv iota.
  change (slice_1_m1 ("{" ++ join ", " (l :: ls) ++ "}"))
    with (drop_last (join ", " (l :: ls) ++ "}")).
  rewrite drop_last_snoc, (strip_join l ls Hall).
  inversion Hall as [|? ? Hl Hrest]; subst.
  destruct (join ", " (l :: ls)) eqn:E;
    [exfalso; apply (join_truthy l ls Hl); exact E|].
  cbn [truthy]. rewrite <- E.
  assert (Hs : split_comma (join ", " (l :: ls)) =
               l :: map (String " ") ls)
    by (apply (split_join ls EmptyString l); [simpl; tauto | exact Hall]).
  rewrite Hs. simpl map.
  rewrite (strip_clean l Hl), map_strip_spaced by exact Hrest.
  reflexivity.
Qed.

Lemma select_Forall (P : string -> Prop) (l : list string) (s : string) :
  Forall P l -> Forall P (select l s).
Proof.
  intros H. revert s. induction H as [|x l Hx _ IH]; intros s.
  - destruct s; constructor.
  - destruct s as [|c s]; [constructor|]. simpl.
    destruct (Ascii.eqb c "1"); [constructor; [exact Hx|]|]; apply IH.
Qed.

(** ** The row that gets highlighted *)

Lemma format_0nb_injective (n i j : nat) :
  format_0nb i n = format_0nb j n -> i = j.
Proof.
  intros H. apply (f_equal int2) in H.
  rewrite !int2_format_0nb in H. congruence.
Qed.

Lemma highlight_from_spec (base_set : list string) (m a r : nat)
    (cb : string) :
  highlight_from a (table_rows (map (record_spec base_set) (seq a m))) cb
    = Some r <->
  a <= r < a + m /\ cb = format_0nb r (List.length base_set).
Proof.
  revert a. induction m as [|m IH]; intros a.
  - simpl. split; [discriminate | lia].
  - simpl seq. simpl map. cbn [table_rows map highlight_from record_spec
                              subset_str binary decimal].
    fold (table_rows (map (record_spec base_set) (seq (S a) m))).
    destruct (String.eqb_spec
                (format_0nb a (List.length base_set)) cb) as [E|E].
    + split.
      * intros H. injection H as <-. split; [lia | now symmetry].
      * intros [Hr ->]. apply format_0nb_injective in E. now subst.
    + rewrite IH. split.
      * intros [Hr ->]. split; [lia | reflexivity].
      * intros [Hr ->]. split; [|reflexivity].
        destruct (Nat.eq_dec r a) as [->|]; [congruence | lia].
Qed.

Lemma highlight_spec (base_set : list string) (cb : string) (r : nat) :
  highlight
    (table_rows
       (map (record_spec base_set) (seq 0 (2 ^ List.length base_set)))) cb
    = Some r <->
  r < 2 ^ List.length base_set /\
  cb = format_0nb r (List.length base_set).
Proof.
  unfold highlight. rewrite highlight_from_spec. simpl. split.
  - intros [[_ H] E]. now split.
  - intros [H E]. split; [lia | exact E].
Qed.

(** ** Coherent configurations *)

Lemma selected_index_format (k n : nat) :
  selected_index (format_0nb k n) = Some k.
Proof.
  unfold selected_index. pose proof (int2_format_0nb k n) as H.
  destruct (format_0nb k n); [discriminate | exact H].
Qed.

Lemma select_zero (l : list string) :
  select l (format_0nb 0 (List.length l)) = [].
Proof.
  apply select_format_nil; [|reflexivity].
  apply Nat.neq_0_lt_0, Nat.pow_nonzero. lia.
Qed.

Lemma sized_coherent (v : nat) : 1 <= v <= 6 -> ui_coherent (sized v).
Proof.
  intros Hv. unfold ui_coherent, sized.
  cbn [ui_base_set ui_set_size spinner_value ui_current_binary
       ui_selected_subset].
  assert (Hlen : List.length (default_base_set v) = v)
    by (rewrite default_base_set_length; lia).
  rewrite Hlen. repeat split; try lia.
  - apply default_base_set_clean.
  - exists 0. split; [apply Nat.neq_0_lt_0, Nat.pow_nonzero; lia|].
    split; [apply zeros_format; lia|].
    rewrite <- Hlen at 2. symmetry. apply select_zero.
Qed.

Lemma edited_coherent (text : string) (ui : Ui) :
  0 < List.length (parse_elements text) -> ui_coherent (edited text ui).
Proof.
  intros Hpos. unfold edited. cbv zeta.
  set (els := parse_elements text) in *.
  set (k := Nat.min (List.length els) 6).
  assert (Hk : 1 <= k <= 6) by (unfold k; lia).
  destruct (k =? spinner_value ui); [|apply sized_coherent; exact Hk].
  assert (Hlen : List.length (firstn 6 els) = k)
    by (rewrite length_firstn; unfold k; lia).
  unfold ui_coherent.
  cbn [ui_base_set ui_set_size spinner_value ui_current_binary
       ui_selected_subset].
  rewrite Hlen. repeat split; try lia.
  - apply Forall_forall. intros l Hl.
    apply (proj1 (Forall_forall _ _) (parse_elements_clean text)).
    fold els. rewrite <- (firstn_skipn 6 els). apply in_or_app. now left.
  - exists 0. split; [apply Nat.neq_0_lt_0, Nat.pow_nonzero; lia|].
    split; [apply zeros_format; lia|].
    rewrite <- Hlen. symmetry. apply select_zero.
Qed.

Lemma select_row_spec (ui ui' : Ui) (row : nat) :
  ui_step ui (SelectRow row) = Some ui' ->
  row < 2 ^ List.length (ui_base_set ui) /\
  ui' = with_selection
          (parse_subset_str (subset_str (record_spec (ui_base_set ui) row)))
          (format_0nb row (List.length (ui_base_set ui))) ui.
Proof.
  unfold ui_step. rewrite update_power_set_spec. unfold table_rows.
  rewrite map_map, nth_error_map.
  destruct (nth_error (seq 0 (2 ^ List.length (ui_base_set ui))) row)
    as [i|] eqn:E; [|discriminate].
  assert (Hrow : row < 2 ^ List.length (ui_base_set ui)).
  { pose proof (proj1 (nth_error_Some
                         (seq 0 (2 ^ List.length (ui_base_set ui))) row))
      as H.
    rewrite length_seq in H. apply H. congruence. }
  rewrite nth_error_nth' with (d := 0) in E
    by (rewrite length_seq; exact Hrow).
  rewrite seq_nth in E by exact Hrow. injection E as <-.
  simpl. intros H. injection H as <-. split; [exact Hrow | reflexivity].
Qed.

Lemma step_coherent (ui ui' : Ui) (ev : UiEvent) :
  ui_coherent ui -> ui_step ui ev = Some ui' -> ui_coherent ui'.
Proof.
  intros Hc Hstep. destruct ev as [v|text|row].
  - unfold ui_step in Hstep.
    destruct ((1 <=? v) && (v <=? 6)) eqn:Hr; [|discriminate].
    apply andb_prop in Hr. destruct Hr as [H1 H6].
    apply Nat.leb_le in H1, H6.
    destruct (v =? spinner_value ui); [injection Hstep as <-; exact Hc|].
    unfold handler_fuel in Hstep.
    rewrite set_size_changed_closed in Hstep by (lia || reflexivity).
    injection Hstep as <-. apply sized_coherent. lia.
  - unfold ui_step in Hstep.
    destruct (String.eqb text (elements_text ui));
      [injection Hstep as <-; exact Hc|].
    unfold handler_fuel in Hstep.
    rewrite elements_changed_closed in Hstep by reflexivity.
    injection Hstep as <-.
    destruct (0 <? List.length (parse_elements text)) eqn:Hpos.
    + apply edited_coherent. apply Nat.ltb_lt. exact Hpos.
    + exact Hc.
  - apply select_row_spec in Hstep. destruct Hstep as [Hrow ->].
    destruct Hc as (Hn & Hsize & Hspin & Hclean & _).
    unfold ui_coherent, with_selection.
    cbn [ui_base_set ui_set_size spinner_value ui_current_binary
         ui_selected_subset].
    repeat split; try assumption; try lia.
    exists row. split; [exact Hrow|]. split; [reflexivity|].
    unfold record_spec. cbn [subset_str].
    apply parse_format_subset. apply select_Forall. exact Hclean.
Qed.

Lemma default_base_set_NoDup (value : nat) : NoDup (default_base_set value).
Proof.
  unfold default_base_set.
  apply Injective_map_NoDup_in; [|apply seq_NoDup].
  intros i j Hi Hj. apply in_seq in Hi, Hj.
  assert (Hi8 : i < 8) by lia. assert (Hj8 : j < 8) by lia.
  clear Hi Hj.
  do 8 (destruct i as [|i]; [
    do 8 (destruct j as [|j]; [intros E; (reflexivity || discriminate E)|]);
    lia|]).
  lia.
Qed.

End UiFacts.

Import Py PyText UiFacts.

(** X5. Labels read from a text are never empty, hold no comma and have
    no white space at either end, whatever the text; and labels of this
    kind, joined by a comma and a blank as [set_size_changed] writes them
    into the line edit, are read back unchanged by [elements_changed]. *)
Theorem labels_survive_join (text : string) (ls : list string) :
  Forall clean_label ls ->
  Forall clean_label (parse_elements text) /\
  parse_elements (join ", " ls) = ls /\
  parse_elements (join ", " (parse_elements text)) = parse_elements text.
Proof.
  intros Hls. split; [apply parse_elements_clean|].
  split; apply parse_join; [exact Hls | apply parse_elements_clean].
Qed.

Lemma labels_survive_join_witness :
  Forall clean_label (parse_elements " a ,,b c, ") /\
  parse_elements (join ", " (default_base_set 3)) = default_base_set 3 /\
  parse_elements (join ", " (parse_elements " a ,,b c, ")) =
    parse_elements " a ,,b c, ".
Proof.
  apply (labels_survive_join " a ,,b c, " (default_base_set 3)).
  apply default_base_set_clean.
Defined.

(** X6. Editing the text of the line edit.  A text without any label
    changes nothing but the text.  Otherwise let [k] be the number of
    labels read, capped at six: when [k] is the value of the spin box the
    first six labels become the base set and the selection is reset; when
    it is not, the spin box takes the value [k], its handler installs the
    default labels [x₁ .. x_k] and writes them into the line edit, and the
    labels that were typed are lost. *)
Theorem text_edit_keeps_or_replaces_labels (ui : Ui) (text : string) :
  text <> elements_text ui ->
  ui_step ui (EditText text) =
  Some (let elements := parse_elements text in
        let k := Nat.min (List.length elements) 6 in
        if List.length elements =? 0 then with_text text ui
        else if k =? spinner_value ui then
          mkUi (firstn 6 elements) k [] (zeros k) k text
        else
          mkUi (default_base_set k) k [] (zeros k) k
            (join ", " (default_base_set k))).
Proof.
  intros Hne. unfold ui_step.
  destruct (String.eqb_spec text (elements_text ui)) as [E|_];
    [congruence|].
  unfold handler_fuel.
  rewrite elements_changed_closed by reflexivity. cbv zeta.
  destruct (List.length (parse_elements text)) as [|m] eqn:Hlen.
  - reflexivity.
  - change (0 <? S m) with true. cbv iota.
    change (S m =? 0) with false. cbv iota.
    unfold edited. cbv zeta. rewrite Hlen.
    cbn [with_text spinner_value]. reflexivity.
Qed.

Lemma text_edit_keeps_or_replaces_labels_witness :
  ui_step initial_ui (EditText "a, b") =
  Some (mkUi ["x₁"; "x₂"] 2 [] "00" 2 "x₁, x₂").
Proof.
  apply (text_edit_keeps_or_replaces_labels initial_ui "a, b").
  discriminate.
Defined.

(** X7. Setting the spin box to a new value [v] of its range installs the
    [v] default labels, which are distinct and clean, writes them into the
    line edit and resets the selection to the empty subset, whatever the
    configuration was: the labels typed before are lost. *)
Theorem spin_installs_default_labels (ui : Ui) (v : nat) :
  1 <= v <= 6 ->
  v <> spinner_value ui ->
  ui_step ui (SpinTo v) =
    Some (mkUi (default_base_set v) v [] (zeros v) v
            (join ", " (default_base_set v))) /\
  List.length (default_base_set v) = v /\
  NoDup (default_base_set v) /\
  Forall clean_label (default_base_set v).
Proof.
  intros Hv Hne. split; [|split; [|split]].
  - unfold ui_step.
    assert (Hr : (1 <=? v) && (v <=? 6) = true).
    { apply andb_true_intro. split; apply Nat.leb_le; lia. }
    rewrite Hr.
    destruct (Nat.eqb_spec v (spinner_value ui)) as [E|_]; [congruence|].
    unfold handler_fuel.
    rewrite set_size_changed_closed by (lia || reflexivity). reflexivity.
  - rewrite default_base_set_length. lia.
  - apply default_base_set_NoDup.
  - apply default_base_set_clean.
Qed.

Lemma spin_installs_default_labels_witness :
  ui_step initial_ui (SpinTo 2) =
    Some (mkUi (default_base_set 2) 2 [] (zeros 2) 2
            (join ", " (default_base_set 2))) /\
  List.length (default_base_set 2) = 2 /\
  NoDup (default_base_set 2) /\
  Forall clean_label (default_base_set 2).
Proof.
  apply (spin_installs_default_labels initial_ui 2); cbn; lia.
Defined.

(** X8. In every configuration the user can reach by setting the spin
    box, editing the text and selecting rows, the base set has between one
    and six clean labels, [set_size] and the spin box hold their number,
    and [current_binary] is the binary string of a row [k] of the table:
    [int(current_binary, 2)] is [k] and does not raise, the row
    highlighted by [update_power_set] is [k], and [selected_subset] is the
    subset of that row. *)
Theorem ui_stays_coherent (evs : list UiEvent) (ui : Ui) :
  ui_steps initial_ui evs = Some ui ->
  ui_coherent ui /\
  exists k recs r,
    k < 2 ^ List.length (ui_base_set ui) /\
    selected_index (ui_current_binary ui) = Some k /\
    update_power_set (ui_base_set ui) = Some recs /\
    highlight (table_rows recs) (ui_current_binary ui) = Some k /\
    nth_error recs k = Some r /\
    ui_selected_subset ui = subset r.
Proof.
  intros Hsteps.
  assert (Hc : ui_coherent ui).
  { assert (Hgen : forall evs u0 u1,
               ui_coherent u0 -> ui_steps u0 evs = Some u1 ->
               ui_coherent u1).
    { clear. induction evs as [|ev evs IH]; intros u0 u1 Hc H; simpl in H.
      - injection H as <-. exact Hc.
      - destruct (ui_step u0 ev) as [u'|] eqn:E; [|discriminate].
        apply (IH u' u1); [|exact H].
        apply (step_coherent u0 u' ev); assumption. }
    apply (Hgen evs initial_ui ui); [|exact Hsteps].
    change initial_ui with (sized 3). apply sized_coherent. lia. }
  split; [exact Hc|].
  destruct Hc as (Hn & _ & _ & _ & k & Hk & Hcb & Hsel).
  exists k,
    (map (record_spec (ui_base_set ui))
       (seq 0 (2 ^ List.length (ui_base_set ui)))),
    (record_spec (ui_base_set ui) k).
  split; [exact Hk|].
  split; [rewrite Hcb; apply selected_index_format|].
  split; [apply EnumFacts.update_power_set_spec|].
  split; [apply highlight_spec; split; assumption|].
  split; [|exact Hsel].
  rewrite nth_error_map, nth_error_nth' with (d := 0)
    by (rewrite length_seq; exact Hk).
  rewrite seq_nth by exact Hk. reflexivity.
Qed.

Lemma ui_stays_coherent_witness :
  let ui := mkUi ["a"; "b"] 2 ["a"] "10" 2 "a , b" in
  ui_coherent ui /\
  exists k recs r,
    k < 2 ^ List.length (ui_base_set ui) /\
    selected_index (ui_current_binary ui) = Some k /\
    update_power_set (ui_base_set ui) = Some recs /\
    highlight (table_rows recs) (ui_current_binary ui) = Some k /\
    nth_error recs k = Some r /\
    ui_selected_subset ui = subset r.
Proof.
  apply (ui_stays_coherent [SpinTo 2; EditText "a , b"; SelectRow 2]).
  reflexivity.
Defined.

(** * The renderer *)

Section DrawingFacts.
Context {F : Type} {ops : NumOps F}.
Variable label_scale : F.
Import FormatFacts EnumFacts.

Lemma comprehension_prefix (n : nat) (l : list string) (s : string) :
  n <= List.length l -> n <= String.length s ->
  comprehension l s (seq 0 n) = Some (select (firstn n l) s).
Proof.
  revert l s. induction n as [|n IH]; intros l s Hl Hs.
  - destruct s; reflexivity.
  - destruct l as [|x l]; [simpl in Hl; lia|].
    destruct s as [|c s]; [simpl in Hs; lia|].
    simpl in Hl, Hs. simpl seq. rewrite <- seq_shift.
    simpl. rewrite comprehension_shift, IH by lia.
    destruct (Ascii.eqb c "1"); reflexivity.
Qed.

Lemma comprehension_overrun (l : list string) (s : string)
    (js : list nat) (j : nat) :
  In j js -> index s j = Some "1"%char -> nth_error l j = None ->
  comprehension l s js = None.
Proof.
  intros Hin Hc Hx. induction js as [|j0 js IH]; [destruct Hin|].
  simpl. destruct (index s j0) as [c|] eqn:E0; [|reflexivity].
  destruct (Nat.eq_dec j0 j) as [->|Hne].
  - rewrite Hc in E0. injection E0 as <-. simpl. rewrite Hx. reflexivity.
  - assert (Hin' : In j js) by (destruct Hin; [congruence | assumption]).
    rewrite (IH Hin').
    destruct (Ascii.eqb c "1"); [|reflexivity].
    destruct (nth_error l j0); reflexivity.
Qed.

(** The label of index 1 needs the last of the [n] elements. *)
Lemma label_one_overruns (base_set : list string) (n : nat) :
  List.length base_set < n ->
  comprehension base_set (format_0nb 1 n) (seq 0 n) = None.
Proof.
  intros Hlen. apply (comprehension_overrun _ _ _ (n - 1)).
  - apply in_seq. lia.
  - unfold index. rewrite format_0nb_get.
    + replace (n - 1 - (n - 1)) with 0 by lia. reflexivity.
    + destruct n as [|n]; [lia|]. rewrite Nat.pow_succ_r'.
      assert (0 < 2 ^ n) by (apply Nat.neq_0_lt_0, Nat.pow_nonzero; lia).
      lia.
    + lia.
  - apply nth_error_None. lia.
Qed.

Lemma draw_power_set_raises (base_set : list string)
    (n ci : nat) (sl : bool) (positions : list (point F)) (i k : nat) :
  k < List.length positions ->
  comprehension base_set (format_0nb (i + k) n) (seq 0 n) = None ->
  draw_power_set label_scale base_set n ci sl i positions = None.
Proof.
  revert i k. induction positions as [|p positions IH]; intros i k Hk Hfail;
    [simpl in Hk; lia|].
  simpl. destruct k as [|k].
  - rewrite Nat.add_0_r in Hfail. rewrite Hfail. reflexivity.
  - destruct (comprehension base_set (format_0nb i n) (seq 0 n));
      [|reflexivity].
    rewrite (IH (S i) k); [|simpl in Hk; lia|].
    + destruct (i =? ci); reflexivity.
    + replace (S i + k) with (i + S k) by lia. exact Hfail.
Qed.

Lemma filter_eqb_seq_list (ci i m : nat) :
  filter (fun k => k =? ci) (seq i m) =
  if (i <=? ci) && (ci <? i + m) then [ci] else [].
Proof.
  revert i. induction m as [|m IH]; intros i.
  - simpl. destruct (i <=? ci) eqn:E1; [|reflexivity].
    apply Nat.leb_le in E1.
    assert ((ci <? i + 0) = false) as -> by (apply Nat.ltb_ge; lia).
    reflexivity.
  - simpl. rewrite IH. destruct (Nat.eqb_spec i ci) as [->|Hne].
    + assert ((S ci <=? ci) = false) as -> by (apply Nat.leb_gt; lia).
      rewrite Nat.leb_refl.
      assert ((ci <? ci + S m) = true) as -> by (apply Nat.ltb_lt; lia).
      reflexivity.
    + destruct (Nat.leb_spec (S i) ci), (Nat.leb_spec i ci),
        (Nat.ltb_spec ci (S i + m)), (Nat.ltb_spec ci (i + S m));
        simpl; try reflexivity; lia.
Qed.

(** The first loop on a base set that has the [n] elements. *)
Lemma draw_power_set_ok (base_set : list string) (n ci : nat) (sl : bool)
    (g : nat -> point F) (m i : nat) :
  n <= List.length base_set ->
  exists arts,
    draw_power_set label_scale base_set n ci sl i (map g (seq i m)) =
      Some arts /\
    texts_of arts =
      (if sl then
         map (fun k => format_subset
                         (select (firstn n base_set) (format_0nb k n)))
           (seq i m)
       else []) /\
    scattered "red" arts = map g (filter (fun k => k =? ci) (seq i m)) /\
    lines_of arts = [].
Proof.
  intros Hn. revert i. induction m as [|m IH]; intros i.
  - exists []. simpl. destruct sl; repeat split; reflexivity.
  - destruct (IH (S i)) as (rest & Hrest & Ht & Hr & Hl).
    simpl seq. simpl map. cbn [draw_power_set].
    rewrite comprehension_prefix
      by (try exact Hn; apply length_format_0nb_ge).
    rewrite Hrest.
    set (sub := select (firstn n base_set) (format_0nb i n)).
    assert (Hlabel : match sub with
                     | [] => "∅"
                     | _ :: _ => "{" ++ Py.join ", " sub ++ "}"
                     end = format_subset sub)
      by (unfold format_subset; destruct sub; reflexivity).
    rewrite Hlabel.
    destruct (i =? ci) eqn:E; eexists; (split; [reflexivity|]);
      unfold texts_of, scattered, lines_of in *; cbn [flat_map];
      rewrite !flat_map_app; fold sub;
      destruct sl; cbn [flat_map app String.eqb Ascii.eqb Bool.eqb
                        filter map];
      rewrite ?Ht, ?Hr, ?Hl, ?E; repeat split; reflexivity.
Qed.

Lemma draw_binary_spec (n ci : nat) (sl : bool) (g : nat -> point F)
    (m i : nat) :
  let arts := draw_binary label_scale n ci sl i (map g (seq i m)) in
  texts_of arts = (if sl then map (fun k => format_0nb k n) (seq i m)
                   else []) /\
  scattered "red" arts = map g (filter (fun k => k =? ci) (seq i m)) /\
  lines_of arts = [].
Proof.
  revert i. induction m as [|m IH]; intros i.
  - simpl. destruct sl; repeat split; reflexivity.
  - destruct (IH (S i)) as (Ht & Hr & Hl).
    simpl seq. simpl map. cbn [draw_binary]. cbv zeta.
    destruct (i =? ci) eqn:E;
      unfold texts_of, scattered, lines_of in *; cbn [flat_map];
      rewrite !flat_map_app;
      destruct sl; cbn [flat_map app String.eqb Ascii.eqb Bool.eqb
                        filter map];
      rewrite ?Ht, ?Hr, ?Hl, ?E; repeat split; reflexivity.
Qed.

Lemma draw_connections_spec (ci : nat) (ps bs : list (point F))
    (g h : nat -> point F) (idxs : list nat) :
  (forall i, In i idxs -> nth_error ps i = Some (g i) /\
                          nth_error bs i = Some (h i)) ->
  exists arts,
    draw_connections ci ps bs idxs = Some arts /\
    texts_of arts = [] /\ scattered "red" arts = [] /\
    lines_of arts = map (fun i => (g i, h i)) idxs.
Proof.
  induction idxs as [|i idxs IH]; intros Hnth.
  - exists []. repeat split; reflexivity.
  - destruct IH as (rest & Hrest & Ht & Hr & Hl);
      [intros k Hk; apply Hnth; now right|].
    destruct (Hnth i ltac:(now left)) as [Hp Hb].
    cbn [draw_connections]. rewrite Hp, Hb, Hrest.
    destruct (i =? ci); eexists; (split; [reflexivity|]);
      unfold texts_of, scattered, lines_of in *; cbn [flat_map app map];
      rewrite ?Ht, ?Hr, ?Hl; repeat split; reflexivity.
Qed.

End DrawingFacts.

(** A complete payload is drawn without error exactly when the window
    holds at least as many labels as it was computed for. *)
Lemma draw_payload_of_raises_iff {F : Type} {ops : NumOps F}
    (label_scale : F) (base_set : list string) (w : Worker) :
  draw_visualization label_scale base_set (payload_of w) = None <->
  List.length base_set < List.length (w_base_set w).
Proof.
  set (n := List.length (w_base_set w)).
  unfold draw_visualization, payload_of. fold n.
  cbn [p_n p_current_index p_show_labels p_show_connections
       power_set_positions binary_positions].
  split.
  - intros Hnone.
    destruct (Nat.lt_ge_cases (List.length base_set) n) as [Hlt|Hge];
      [exact Hlt|]. exfalso.
    destruct (draw_power_set_ok label_scale base_set n (w_current_index w)
                (w_show_labels w) (power_point n) (2 ^ n) 0 Hge)
      as (arts & Hdraw & _).
    rewrite Hdraw in Hnone.
    destruct (w_show_connections w); [|discriminate].
    destruct (draw_connections_spec (w_current_index w)
                (map (power_point n) (seq 0 (2 ^ n)))
                (map (binary_point n) (seq 0 (2 ^ n)))
                (power_point n) (binary_point n) (seq 0 (2 ^ n)))
      as (lines & Hlines & _).
    { intros i Hi. apply in_seq in Hi.
      rewrite !nth_error_map, nth_error_nth' with (d := 0)
        by (rewrite length_seq; lia).
      rewrite seq_nth by lia. split; reflexivity. }
    rewrite Hlines in Hnone. discriminate.
  - intros Hlt.
    rewrite (draw_power_set_raises label_scale base_set n _ _ _ 0 1);
      [reflexivity | |].
    + rewrite length_map, length_seq.
      destruct n as [|n']; [lia|]. rewrite Nat.pow_succ_r'.
      assert (0 < 2 ^ n') by (apply Nat.neq_0_lt_0, Nat.pow_nonzero; lia).
      lia.
    + apply label_one_overruns. exact Hlt.
Qed.

(** X9. A payload computed for [n] elements is drawn without error
    exactly when the window still holds at least [n] labels: if the base
    set has become smaller since the worker was started,
    [draw_visualization] raises [IndexError] while it builds the label of
    the second point. *)
Theorem stale_payload_breaks_drawing {F : Type} {ops : NumOps F}
    (label_scale : F) (base_set : list string) (w : Worker)
    (interrupted : nat -> bool) (p : Payload F) :
  run w interrupted = Some p ->
  (draw_visualization label_scale base_set p = None <->
   List.length base_set < List.length (w_base_set w)).
Proof.
  intros Hrun. apply run_emits_payload_of in Hrun. subst p.
  apply draw_payload_of_raises_iff.
Qed.

Lemma stale_payload_breaks_drawing_witness :
  draw_visualization (ops := RealOps) (11 / 10)%R (default_base_set 1)
    (payload_of (mkWorker (default_base_set 3) 0 true true)) = None <->
  List.length (default_base_set 1) < List.length (default_base_set 3).
Proof.
  apply (stale_payload_breaks_drawing (ops := RealOps) (11 / 10)%R
           (default_base_set 1) (mkWorker (default_base_set 3) 0 true true)
           (fun _ => false)).
  reflexivity.
Defined.

(** X10. Drawn for the base set it was computed for, a payload gives a
    plot that agrees with the table: with labels switched on the texts at
    the points are the subset strings of the rows, in row order, followed
    by their binary strings, and none is drawn otherwise; the points drawn
    in red are the power-set point and the binary point of the selected
    index, if it is below [2 ^ n]; and with connections switched on there
    is one segment per row, from its power-set point to its binary
    point. *)
Theorem drawing_agrees_with_table {F : Type} {ops : NumOps F}
    (label_scale : F) (w : Worker) (interrupted : nat -> bool)
    (p : Payload F) :
  run w interrupted = Some p ->
  let n := List.length (w_base_set w) in
  exists arts recs,
    draw_visualization label_scale (w_base_set w) p = Some arts /\
    update_power_set (w_base_set w) = Some recs /\
    texts_of arts =
      (if w_show_labels w then (map subset_str recs ++ map binary recs)%list
       else []) /\
    scattered "red" arts =
      (if w_current_index w <? 2 ^ n then
         [power_point n (w_current_index w);
          binary_point n (w_current_index w)]
       else []) /\
    lines_of arts =
      (if w_show_connections w then
         map (fun i => (power_point n i, binary_point n i)) (seq 0 (2 ^ n))
       else []).
Proof.
  intros Hrun n. apply run_emits_payload_of in Hrun. subst p.
  unfold draw_visualization, payload_of. fold n.
  cbn [p_n p_current_index p_show_labels p_show_connections
       power_set_positions binary_positions].
  destruct (draw_power_set_ok label_scale (w_base_set w) n
              (w_current_index w) (w_show_labels w) (power_point n)
              (2 ^ n) 0 (Nat.le_refl _)) as (a1 & Hdraw & Ht1 & Hr1 & Hl1).
  rewrite Hdraw.
  destruct (draw_binary_spec label_scale n (w_current_index w)
              (w_show_labels w) (binary_point n) (2 ^ n) 0)
    as (Ht2 & Hr2 & Hl2).
  set (a2 := draw_binary label_scale n (w_current_index w)
               (w_show_labels w) 0 (map (binary_point n) (seq 0 (2 ^ n))))
    in *.
  assert (Hlines : exists a3,
             (if w_show_connections w then
                draw_connections (w_current_index w)
                  (map (power_point n) (seq 0 (2 ^ n)))
                  (map (binary_point n) (seq 0 (2 ^ n))) (seq 0 (2 ^ n))
              else Some []) = Some a3 /\
             texts_of a3 = [] /\ scattered "red" a3 = [] /\
             lines_of a3 =
               (if w_show_connections w then
                  map (fun i => (power_point n i, binary_point n i))
                    (seq 0 (2 ^ n))
                else [])).
  { destruct (w_show_connections w);
      [|exists []; repeat split; reflexivity].
    apply draw_connections_spec. intros i Hi. apply in_seq in Hi.
    rewrite !nth_error_map, nth_error_nth' with (d := 0)
      by (rewrite length_seq; lia).
    rewrite seq_nth by lia. split; reflexivity. }
  destruct Hlines as (a3 & -> & Ht3 & Hr3 & Hl3).
  eexists. exists (map (record_spec (w_base_set w)) (seq 0 (2 ^ n))).
  split; [reflexivity|].
  split; [apply EnumFacts.update_power_set_spec|].
  assert (Hfirst : firstn n (w_base_set w) = w_base_set w)
    by apply firstn_all.
  rewrite Hfirst in Ht1. rewrite filter_eqb_seq_list in Hr1, Hr2.
  change (0 <=? w_current_index w) with true in Hr1, Hr2.
  change (0 + 2 ^ n) with (2 ^ n) in Hr1, Hr2.
  cbn [andb] in Hr1, Hr2.
  unfold texts_of, scattered, lines_of in *.
  rewrite !flat_map_app. cbn [flat_map app].
  rewrite Ht1, Ht2, Ht3, Hr1, Hr2, Hr3, Hl1, Hl2, Hl3, !app_nil_r.
  rewrite !map_map. cbn [record_spec subset_str binary]. fold n.
  split; [destruct (w_show_labels w); reflexivity|].
  split; [destruct (w_current_index w <? 2 ^ n); reflexivity|].
  reflexivity.
Qed.

Lemma drawing_agrees_with_table_witness :
  let w := mkWorker (default_base_set 2) 1 true true in
  exists arts recs,
    draw_visualization (ops := RealOps) (11 / 10)%R (w_base_set w)
      (payload_of w) = Some arts /\
    update_power_set (w_base_set w) = Some recs /\
    texts_of arts =
      (if w_show_labels w then (map subset_str recs ++ map binary recs)%list
       else []) /\
    scattered "red" arts =
      (if w_current_index w <? 2 ^ 2 then
         [power_point 2 (w_current_index w);
          binary_point 2 (w_current_index w)]
       else []) /\
    lines_of arts =
      (if w_show_connections w then
         map (fun i => (power_point 2 i, binary_point 2 i)) (seq 0 (2 ^ 2))
       else []).
Proof.
  intros w.
  apply (drawing_agrees_with_table (ops := RealOps) (11 / 10)%R w
           (fun _ => false)).
  reflexivity.
Defined.

(** X11. Selecting row [row] of the table, for a base set of clean
    labels: [table_selection_changed] stores the binary string of the row
    and reads the subset of the row back from its printed form, and the
    worker that [update_3d_visualization] then starts carries [row] as its
    selected index. *)
Theorem row_selection_recovers_subset {F : Type} {ops : NumOps F}
    (ui : Ui) (row : nat) (win : Window F) :
  Forall clean_label (ui_base_set ui) ->
  row < 2 ^ List.length (ui_base_set ui) ->
  exists ui' r,
    ui_step ui (SelectRow row) = Some ui' /\
    nth_record (ui_base_set ui) row = Some r /\
    ui_current_binary ui' = binary r /\
    ui_selected_subset ui' = subset r /\
    parse_subset_str (subset_str r) = subset r /\
    ui_base_set ui' = ui_base_set ui /\
    (current_binary win = ui_current_binary ui' ->
     exists win',
       update_3d_visualization win = Some win' /\
       option_map job (worker win') =
         Some (mkWorker (base_set win) row (show_labels_checked win)
                 (show_connections_checked win))).
Proof.
  intros Hclean Hrow.
  set (r := record_spec (ui_base_set ui) row).
  assert (Hparse : parse_subset_str (subset_str r) = subset r).
  { unfold r, record_spec. cbn [subset_str subset].
    apply parse_format_subset. apply select_Forall. exact Hclean. }
  exists (with_selection (subset r) (binary r) ui), r.
  split.
  - unfold ui_step. rewrite EnumFacts.update_power_set_spec.
    unfold table_rows. rewrite map_map, nth_error_map.
    rewrite nth_error_nth' with (d := 0) by (rewrite length_seq; exact Hrow).
    rewrite seq_nth by exact Hrow. cbn [option_map Nat.add].
    fold r. unfold table_selection_changed. cbn [fst].
    rewrite Hparse. reflexivity.
  - split; [apply EnumFacts.nth_record_spec; exact Hrow|].
    split; [reflexivity|]. split; [reflexivity|].
    split; [exact Hparse|]. split; [reflexivity|].
    cbn [with_selection ui_current_binary]. intros Hcb.
    unfold update_3d_visualization. rewrite Hcb.
    unfold r, record_spec. cbn [binary].
    rewrite selected_index_format. eexists. split; reflexivity.
Qed.

Lemma row_selection_recovers_subset_witness :
  let ui := mkUi ["a"; "b c"] 2 [] "00" 2 "a, b c" in
  let win := mkWindow (F := R) ["a"; "b c"] "11" true false None [] [] in
  exists ui' r,
    ui_step ui (SelectRow 3) = Some ui' /\
    nth_record (ui_base_set ui) 3 = Some r /\
    ui_current_binary ui' = binary r /\
    ui_selected_subset ui' = subset r /\
    parse_subset_str (subset_str r) = subset r /\
    ui_base_set ui' = ui_base_set ui /\
    (current_binary win = ui_current_binary ui' ->
     exists win',
       update_3d_visualization win = Some win' /\
       option_map job (worker win') =
         Some (mkWorker (base_set win) 3 (show_labels_checked win)
                 (show_connections_checked win))).
Proof.
  intros ui win.
  apply (row_selection_recovers_subset (ops := RealOps) ui 3 win).
  - repeat constructor; try discriminate; try reflexivity;
      vm_compute; intuition discriminate.
  - cbn. lia.
Defined.

(** X12. The row that [update_power_set] highlights is the one whose index
    is the value of [current_binary]: row [r] is selected exactly when [r]
    is below [2 ^ n] and [current_binary] is the zero-padded binary string
    of [r], and then [int(current_binary, 2)] is [r].  A [current_binary]
    of another width, such as the one [set_size_changed] stores for a value
    above eight, highlights no row. *)
Theorem highlighted_row_decodes_current_binary (base_set : list string)
    (current_binary : string) (r : nat) :
  exists recs,
    update_power_set base_set = Some recs /\
    (highlight (table_rows recs) current_binary = Some r <->
     r < 2 ^ List.length base_set /\
     current_binary = format_0nb r (List.length base_set)) /\
    (highlight (table_rows recs) current_binary = Some r ->
     selected_index current_binary = Some r) /\
    (1 <= List.length base_set ->
     String.length current_binary <> List.length base_set ->
     highlight (table_rows recs) current_binary = None).
Proof.
  exists (map (record_spec base_set) (seq 0 (2 ^ List.length base_set))).
  split; [apply EnumFacts.update_power_set_spec|].
  split; [apply highlight_spec|]. split.
  - intros H. apply highlight_spec in H. destruct H as [_ ->].
    apply selected_index_format.
  - intros Hn Hlen.
    destruct (highlight _ current_binary) as [k|] eqn:E; [|reflexivity].
    exfalso. apply highlight_spec in E. destruct E as [Hk ->].
    apply Hlen. apply FormatFacts.length_format_0nb; assumption.
Qed.

(** * Queued payloads and closing *)

Section QueueFacts.
Context {F : Type} {ops : NumOps F}.

Lemma finish_posts (t : Thread) (p : Payload F) :
  In p (snd (finish t)) -> p = payload_of (job t).
Proof.
  unfold finish. destruct (is_running t); [|intros []].
  simpl. destruct (run (job t) _) as [q|] eqn:E; [|intros []].
  intros [<-|[]]. apply run_emits_payload_of in E. exact E.
Qed.

Lemma step_posted_complete (win win' : Window F) (a : Action) :
  posted_complete win -> step win a = Some win' -> posted_complete win'.
Proof.
  intros Hinv Hstep p Hp. destruct a; simpl in Hstep.
  - injection Hstep as <-. apply Hinv. exact Hp.
  - unfold update_3d_visualization in Hstep.
    destruct (selected_index (current_binary win)); [|discriminate].
    injection Hstep as <-. simpl in Hp.
    destruct (worker win) as [t|]; [|apply Hinv; exact Hp].
    destruct (is_running t) eqn:Er; [|apply Hinv; exact Hp].
    apply in_app_or in Hp. destruct Hp as [Hp|Hp]; [apply Hinv; exact Hp|].
    exists (job t). apply finish_posts. exact Hp.
  - destruct (worker win) as [t|] eqn:Hw.
    + pose proof (finish_posts t) as Hf.
      destruct (finish t) as [t' out]. injection Hstep as <-.
      simpl in Hp. apply in_app_or in Hp.
      destruct Hp as [Hp|Hp]; [apply Hinv; exact Hp|].
      exists (job t). apply Hf. exact Hp.
    + injection Hstep as <-. apply Hinv. exact Hp.
  - destruct (posted win) as [|q rest] eqn:E.
    + injection Hstep as <-. rewrite E in Hp. destruct Hp.
    + injection Hstep as <-. simpl in Hp. apply Hinv.
      rewrite E. now right.
Qed.

Lemma reachable_posted_complete (tr : list Action) (win : Window F) :
  steps initial_window tr = Some win -> posted_complete win.
Proof.
  assert (Hgen : forall tr w0 w1,
             posted_complete w0 -> steps w0 tr = Some w1 ->
             posted_complete w1).
  { clear. induction tr as [|a tr IH]; intros w0 w1 Hc H; simpl in H.
    - injection H as <-. exact Hc.
    - destruct (step w0 a) as [w'|] eqn:E; [|discriminate].
      apply (IH w' w1); [|exact H].
      apply (step_posted_complete w0 w' a); assumption. }
  apply Hgen. intros p [].
Qed.

End QueueFacts.

Lemma anim_steps_consistent (evs : list AnimEvent) (a0 a1 : Animation) :
  anim_consistent a0 -> anim_steps a0 evs = Some a1 -> anim_consistent a1.
Proof.
  revert a0. induction evs as [|ev evs IH]; intros a0 Hc H; simpl in H.
  - injection H as <-. exact Hc.
  - destruct (anim_step a0 ev) as [a'|] eqn:E; [|discriminate].
    apply (IH a'); [|exact H].
    apply (anim_step_consistent a0 a' ev); assumption.
Qed.

Lemma initial_animation_consistent : anim_consistent initial_animation.
Proof.
  unfold anim_consistent. simpl.
  repeat split; try reflexivity. right. left. reflexivity.
Qed.

(** X13. Whatever the window went through, a payload that waits in its
    queue is the complete payload of some worker (all [2 ^ n] positions of
    both kinds, with the size, selection and flags that worker was built
    with), and it is drawn without error exactly when the window still
    holds at least as many labels as the payload was computed for: after
    the base set has shrunk, the delivery of a payload requested before
    raises [IndexError] in [draw_visualization]. *)
Theorem queued_payload_draws_iff_fits {F : Type} {ops : NumOps F}
    (label_scale : F) (tr : list Action) (win : Window F)
    (p : Payload F) :
  steps initial_window tr = Some win ->
  In p (posted win) ->
  (exists w : Worker, p = payload_of w) /\
  (draw_visualization label_scale (base_set win) p = None <->
   List.length (base_set win) < p_n p).
Proof.
  intros Hsteps Hin.
  destruct (reachable_posted_complete tr win Hsteps p Hin) as [w ->].
  split.
  - exists w. reflexivity.
  - apply draw_payload_of_raises_iff.
Qed.

Lemma queued_payload_draws_iff_fits_witness :
  (exists w : Worker,
     payload_of (ops := RealOps)
       (mkWorker (default_base_set 3) 0 true true) = payload_of w) /\
  (draw_visualization (ops := RealOps) (11 / 10)%R (default_base_set 1)
     (payload_of (mkWorker (default_base_set 3) 0 true true)) = None <->
   1 < 3).
Proof.
  apply (queued_payload_draws_iff_fits (ops := RealOps) (11 / 10)%R
           [Update; Configure (default_base_set 1) "0" true true; Update]
           (mkWindow (default_base_set 1) "0" true true
              (Some (start (mkWorker (default_base_set 1) 0 true true)))
              [payload_of (mkWorker (default_base_set 3) 0 true true)] [])).
  - reflexivity.
  - left. reflexivity.
Defined.

(** X14. Closing the window, in whatever state the window and the replay
    are: afterwards the timer is inactive and no worker is running.  A
    worker that was running has not been interrupted: its complete payload
    has been added to the queue.  Nothing is drawn by the call itself. *)
Theorem close_event_quiets_window {F : Type} {ops : NumOps F}
    (tr : list Action) (evs : list AnimEvent) (win : Window F)
    (a : Animation) :
  steps initial_window tr = Some win ->
  anim_steps initial_animation evs = Some a ->
  timer (snd (closeEvent win a)) = None /\
  (forall t, worker (fst (closeEvent win a)) = Some t ->
             is_running t = false) /\
  (forall t, worker win = Some t -> is_running t = true ->
             posted (fst (closeEvent win a)) =
               (posted win ++ [payload_of (job t)])%list) /\
  drawn (fst (closeEvent win a)) = drawn win.
Proof.
  intros Hsteps Hanim.
  pose proof (anim_steps_consistent evs _ _ initial_animation_consistent
                Hanim) as (Ht & _).
  pose proof (reachable_never_interrupted tr win Hsteps) as Hflag.
  unfold closeEvent. cbn [fst snd]. split; [|split; [|split]].
  - destruct (animation_running a); [reflexivity | exact Ht].
  - intros t. destruct (worker win) as [t0|] eqn:Hw;
      [|rewrite Hw; discriminate].
    destruct (is_running t0) eqn:Er.
    + unfold wait, quit, finish. rewrite Er. simpl.
      intros H. injection H as <-. reflexivity.
    + rewrite Hw. intros H. injection H as <-. exact Er.
  - intros t Hw Hr. rewrite Hw, Hr.
    unfold wait, quit, finish. rewrite Hr, (Hflag t Hw). simpl.
    rewrite run_clear by reflexivity. reflexivity.
  - destruct (worker win) as [t0|]; [|reflexivity].
    destruct (is_running t0); [|reflexivity].
    destruct (wait (quit t0)). reflexivity.
Qed.

Lemma close_event_quiets_window_witness :
  let win := mkWindow (F := R) (default_base_set 3) "000" true true
               (Some (start (mkWorker (default_base_set 3) 0 true true)))
               [] [] in
  let a := mkAnimation 1000 0 true (Some 1000) "Stop Animation" in
  timer (snd (closeEvent win a)) = None /\
  (forall t, worker (fst (closeEvent win a)) = Some t ->
             is_running t = false) /\
  (forall t, worker win = Some t -> is_running t = true ->
             posted (fst (closeEvent win a)) =
               (posted win ++ [payload_of (job t)])%list) /\
  drawn (fst (closeEvent win a)) = drawn win.
Proof.
  intros win a.
  apply (close_event_quiets_window (ops := RealOps) [Update] [Clicked]);
    reflexivity.
Defined.
